(** * gretchen: a fetch wrapper with JSON negotiation, 429 retry and error throwing

    Shallow embedding of [src/index.ts] (functions [gretchen] and
    [createGretchen], class [HTTPError]) and of the version script
    [scripts/bump.ts].

    JavaScript objects live in a heap of locations, so that aliasing between
    the caller's configuration object, its [headers] value and the request
    descriptor handed to [fetch] is visible.  The platform (clock, [fetch],
    timers, the JSON codec and the [Date] parser) is an interface whose
    operations the code consumes; every call to [fetch] and every timer
    suspension is recorded in a log.

    Modelling choices:
    - numbers are integers ([Z]): statuses, epoch milliseconds and delays
      are integer-valued doubles in the code.  The results the code
      computes itself ([Number] of a digit string, the product by 1000, the
      difference of two epochs) are rounded to the nearest double, ties to
      even, and [2^1024] stands for [Infinity];
    - the platform reads the heap and never writes it, and the JSON codec
      has no side effect (no [toJSON] that mutates);
    - [Headers] is modelled by its header list with [get], [set] and the
      constructor; names and values are taken to be valid header strings,
      so the [TypeError] of an invalid name and the stripping of white space
      around values are left out.  A [headers] value is [undefined], a
      primitive, or an object of one of the three shapes [OHeaders],
      [OPairs] and [ORecord]: an object literal given as headers is an
      [ORecord], which keeps the order of its entries.  The conversion of
      other objects to a record of their own properties is not modelled,
      and the statements speak of header values whose list the constructor
      gives, or of primitives;
    - the [for (;;)] loop is cut after a number of iterations (the fuel),
      and the world reached at the cut is kept, so that statements over all
      fuels speak about every finite prefix of a run that never ends. *)

From Stdlib Require Import ZArith String Ascii List.
From stdpp Require Import base option gmap strings list fin_maps pretty.

Local Open Scope string_scope.

(** ** Values and heap objects *)

Definition loc := nat.

(** JavaScript values.  Numbers are the integers on which the code computes
    (statuses, epoch milliseconds, delays). *)
Inductive value :=
| VUndefined
| VNull
| VBool (b : bool)
| VNum (n : Z)
| VStr (s : string)
| VRef (l : loc).

(** A header list: (name, value) pairs in insertion order. *)
Definition header_list := list (string * string).

(** A [Request] instance, as far as the transport reads it. *)
Record RequestData := {
  req_url : string;
  req_method : string;
  req_headers : header_list;
  req_body : option string
}.

(** Heap objects.  [OPlain] is an ordinary object seen through its own
    enumerable properties (a key can be present with value [VUndefined]);
    [OHeaders], [OPairs] and [ORecord] are the three shapes of the DOM type
    [HeadersInit]. *)
Inductive object :=
| OPlain (props : gmap string value)
| OHeaders (hl : header_list)
| OPairs (ps : header_list)
| ORecord (r : header_list)
| OURL (href : string)
| ORequest (r : RequestData)
| OOpaque.

(** A [Response] as the code reads it. *)
Record Response := {
  status : Z;
  statusText : string;
  resp_headers : header_list;
  resp_body : string
}.

(** [response.ok]: the status is in the range 200-299. *)
Definition ok (r : Response) : bool :=
  ((200 <=? status r) && (status r <=? 299))%Z.

(** Result of [response.json()]. *)
#[local] Unset Elimination Schemes.
Inductive json :=
| JNull
| JBool (b : bool)
| JNum (n : Z)
| JStr (s : string)
| JArr (items : list json)
| JObj (members : list (string * json)).
#[local] Set Elimination Schemes.

(** Errors: [HTTPError] is the class of this module; everything thrown by the
    platform (a rejected [fetch], a [TypeError] of [new Headers], an error of
    the JSON codec) is an [ExternalError]. *)
Inductive exn :=
| HTTPError (message : string) (response : Response)
| ExternalError (name : string).

(** What a call of [gretchen] resolves to. *)
Inductive retval :=
| RResponse (r : Response)
| RJson (j : json).

Inductive outcome :=
| Returned (v : retval)
| Thrown (e : exn).

(** One entry of the log (newest entry first in a log): a transport call with
    the heap it could read, its two arguments and its result, or a timer
    suspension with its delay in milliseconds. *)
Inductive Event :=
| EvFetch (h : gmap loc object) (input init : value) (res : string + Response)
| EvSleep (delay : Z).

(** ** JavaScript primitives *)

(** ToBoolean. *)
Definition truthy (v : value) : bool :=
  match v with
  | VUndefined | VNull => false
  | VBool b => b
  | VNum n => negb (n =? 0)%Z
  | VStr s => negb (String.eqb s "")
  | VRef _ => true
  end.

(** [v == null]. *)
Definition is_nullish (v : value) : bool :=
  match v with
  | VUndefined | VNull => true
  | _ => false
  end.

(** [v !== undefined]. *)
Definition is_defined (v : value) : bool :=
  match v with
  | VUndefined => false
  | _ => true
  end.

(** Own enumerable properties copied by an object spread [{...v}]. *)
Definition own_props (h : gmap loc object) (v : value) : gmap string value :=
  match v with
  | VRef l =>
      match h !! l with
      | Some (OPlain props) => props
      | _ => ∅
      end
  | _ => ∅
  end.

(** Reading a property: an absent key reads as [undefined]. *)
Definition field (props : gmap string value) (k : string) : value :=
  default VUndefined (props !! k).

(** The options this module recognizes. *)
Definition recognized : list string :=
  ["body"; "requestJSON"; "retryOnTooManyRequests"; "returnJSON"; "sendJSON";
   "throwOnError"].

(** The [...rest] of the destructuring: every key but the named ones. *)
Definition omit (ks : list string) (props : gmap string value)
  : gmap string value :=
  foldr delete props ks.

(** [input instanceof Request]. *)
Definition instanceof_Request (h : gmap loc object) (input : value) : bool :=
  match input with
  | VRef l =>
      match h !! l with
      | Some (ORequest _) => true
      | _ => false
      end
  | _ => false
  end.

(** ** The [Headers] class *)

Definition ascii_lower (c : ascii) : ascii :=
  let n := nat_of_ascii c in
  if (65 <=? n)%nat && (n <=? 90)%nat then ascii_of_nat (n + 32) else c.

Fixpoint lower (s : string) : string :=
  match s with
  | EmptyString => EmptyString
  | String c s' => String (ascii_lower c) (lower s')
  end.

(** Header names are compared case-insensitively. *)
Definition name_eqb (a b : string) : bool := String.eqb (lower a) (lower b).

(** The values of the entries called [name], in order. *)
Fixpoint values_of (name : string) (hl : header_list) : list string :=
  match hl with
  | [] => []
  | (n, v) :: hl' =>
      if name_eqb n name then v :: values_of name hl' else values_of name hl'
  end.

(** The list without the entries called [name]. *)
Fixpoint remove_all (name : string) (hl : header_list) : header_list :=
  match hl with
  | [] => []
  | (n, v) :: hl' =>
      if name_eqb n name then remove_all name hl'
      else (n, v) :: remove_all name hl'
  end.

Fixpoint join_comma (vs : list string) : string :=
  match vs with
  | [] => ""
  | [v] => v
  | v :: vs' => v ++ ", " ++ join_comma vs'
  end.

(** [headers.get(name)]: [None] is [null]; several values are combined. *)
Definition Headers_get (hl : header_list) (name : string) : option string :=
  match values_of name hl with
  | [] => None
  | vs => Some (join_comma vs)
  end.

Fixpoint set_first (name v : string) (hl : header_list) : header_list :=
  match hl with
  | [] => []
  | (n, x) :: hl' =>
      if name_eqb n name
      then (n, v) :: remove_all name hl'
      else (n, x) :: set_first name v hl'
  end.

(** [headers.set(name, v)]: overwrite the first entry of that name and drop
    the others, or append. *)
Definition Headers_set (hl : header_list) (name v : string) : header_list :=
  match values_of name hl with
  | [] => (hl ++ [(name, v)])%list
  | _ => set_first name v hl
  end.

(** [new Headers(init)]: the entries of [init] appended in order; [None] is
    the [TypeError] for a value that is not a [HeadersInit]. *)
Definition Headers_fill (h : gmap loc object) (init : value)
  : option header_list :=
  match init with
  | VUndefined => Some []
  | VRef l =>
      match h !! l with
      | Some (OHeaders hl) => Some hl
      | Some (OPairs ps) => Some ps
      | Some (ORecord r) => Some r
      | _ => None
      end
  | _ => None
  end.

(** ** The [Retry-After] value *)

Definition is_digit (c : ascii) : bool :=
  let n := nat_of_ascii c in (48 <=? n)%nat && (n <=? 57)%nat.

(** [s.match(/^\d+$/)]: one or more characters, all decimal digits. *)
Definition all_digits (s : string) : bool :=
  match s with
  | EmptyString => false
  | _ => forallb is_digit (list_ascii_of_string s)
  end.

Definition digit_value (c : ascii) : Z := Z.of_nat (nat_of_ascii c - 48).

(** The mathematical value of a string of decimal digits, in base ten. *)
Definition Number_of_digits (s : string) : Z :=
  fold_left (λ acc c, (10 * acc + digit_value c)%Z) (list_ascii_of_string s) 0%Z.

(** ** Double precision *)

(** [Infinity]: the first power of two above every finite double stands
    for it. *)
Definition Infinity : Z := (2 ^ 1024)%Z.

(** The double nearest to an integer [a ≥ 0], ties to even: 53 significant
    bits are kept, and what rounds to [2^1024] is [Infinity]. *)
Definition nearest_double (a : Z) : Z :=
  if (a <? 2 ^ 53)%Z then a
  else
    let e := (Z.log2 a - 52)%Z in
    let q := Z.shiftr a e in
    let r := (a - Z.shiftl q e)%Z in
    let half := Z.shiftl 1 (e - 1) in
    let q' := if (r <? half)%Z || ((r =? half)%Z && Z.even q)
              then q else (q + 1)%Z in
    let m := Z.shiftl q' e in
    if (Infinity <=? m)%Z then Infinity else m.

(** The double that holds the result of an operation whose exact result
    is the integer [n]. *)
Definition to_double (n : Z) : Z :=
  if (n <? 0)%Z then (- nearest_double (- n))%Z else nearest_double n.

(** [Number(s)] for a string of decimal digits. *)
Definition Number (s : string) : Z := to_double (Number_of_digits s).

(** ** The platform *)

(** The capabilities the code consumes, over a state [E] of the outside
    world: the clock, the transport ([fetch] reads the heap and its two
    arguments and resolves to a response or rejects), the timer, the [Date]
    parser ([None] is an invalid date, whose number is NaN), and the JSON
    codec ([inl] is a thrown error).  The clock and the parser give time
    values, integers that a double holds exactly. *)
Class Platform (E : Type) := {
  Date_now : E → Z;
  fetch : E → gmap loc object → value → value → E * (string + Response);
  setTimeout : E → Z → E;
  Date_parse : string → option Z;
  JSON_stringify : gmap loc object → value → string + value;
  Response_json : Response → string + json
}.

Record World (E : Type) := mkWorld {
  heap : gmap loc object;
  env : E;
  log : list Event
}.
Arguments mkWorld {E} _ _ _.
Arguments heap {E} _.
Arguments env {E} _.
Arguments log {E} _.

(** ** A state and exception monad *)

Definition M (E A : Type) : Type := World E → World E * (exn + A).

#[export] Instance M_ret {E} : MRet (M E) := λ A a w, (w, inr a).

#[export] Instance M_bind {E} : MBind (M E) := λ A B f m w,
  match m w with
  | (w', inr a) => f a w'
  | (w', inl e) => (w', inl e)
  end.

#[export] Instance M_fmap {E} : FMap (M E) := λ A B f m w,
  match m w with
  | (w', inr a) => (w', inr (f a))
  | (w', inl e) => (w', inl e)
  end.

(** The recognized options, read once by the destructuring. *)
Record Options := {
  body : value;
  requestJSON : value;
  retryOnTooManyRequests : value;
  returnJSON : value;
  sendJSON : value;
  throwOnError : value
}.

Section Gretchen.
Context {E : Type} `{Platform E}.

Definition skip : M E unit := mret tt.

Definition throw {A} (e : exn) : M E A := λ w, (w, inl e).

Definition get_heap : M E (gmap loc object) := λ w, (w, inr (heap w)).

(** Object creation: a location that is not in use. *)
Definition alloc (o : object) : M E loc := λ w,
  let l := fresh (dom (heap w)) in
  (mkWorld (<[l := o]> (heap w)) (env w) (log w), inr l).

(** The own properties of the object at [l]. *)
Definition read_props (l : loc) : M E (gmap string value) := λ w,
  (w, inr (own_props (heap w) (VRef l))).

(** [o.k]. *)
Definition get_prop (l : loc) (k : string) : M E value := λ w,
  (w, inr (field (own_props (heap w) (VRef l)) k)).

(** [o.k = v]. *)
Definition set_prop (l : loc) (k : string) (v : value) : M E unit := λ w,
  match heap w !! l with
  | Some (OPlain props) =>
      (mkWorld (<[l := OPlain (<[k := v]> props)]> (heap w)) (env w) (log w),
       inr tt)
  | _ => (w, inr tt)
  end.

(** [new Headers(init)]. *)
Definition new_Headers (init : value) : M E loc :=
  h ← get_heap;
  match Headers_fill h init with
  | Some hl => alloc (OHeaders hl)
  | None => throw (ExternalError "TypeError")
  end.

(** [if (hs.get(name) == null) hs.set(name, v)] on the [Headers] at [hs]. *)
Definition set_if_absent (hs : loc) (name v : string) : M E unit := λ w,
  match heap w !! hs with
  | Some (OHeaders hl) =>
      match Headers_get hl name with
      | None =>
          (mkWorld (<[hs := OHeaders (Headers_set hl name v)]> (heap w))
                   (env w) (log w), inr tt)
      | Some _ => (w, inr tt)
      end
  | _ => (w, inr tt)
  end.

(** [JSON.stringify(v)]. *)
Definition stringify (v : value) : M E value :=
  h ← get_heap;
  match JSON_stringify h v with
  | inr s => mret s
  | inl e => throw (ExternalError e)
  end.

(** [Date.now()]. *)
Definition now : M E Z := λ w, (w, inr (Date_now (env w))).

(** [await fetch(input, init)]. *)
Definition call_fetch (input init : value) : M E Response := λ w,
  let '(e', res) := fetch (env w) (heap w) input init in
  let w' := mkWorld (heap w) e' (EvFetch (heap w) input init res :: log w) in
  match res with
  | inr response => (w', inr response)
  | inl e => (w', inl (ExternalError e))
  end.

(** [await new Promise((resolve) => { setTimeout(resolve, delay); })]. *)
Definition sleep (delay : Z) : M E unit := λ w,
  (mkWorld (heap w) (setTimeout (env w) delay) (EvSleep delay :: log w),
   inr tt).

(** Lines 129-132 and 138-141, the same statements for [accept] and for
    [content-type]:
    [init.headers = new Headers(init.headers);
     if (init.headers.get(name) == null) init.headers.set(name, v);] *)
Definition default_header (init : loc) (name v : string) : M E unit :=
  old ← get_prop init "headers";
  hs ← new_Headers old;
  set_prop init "headers" (VRef hs);;
  set_if_absent hs name v.

(** Lines 115-125: the recognized options of the copy. *)
Definition options_of (props : gmap string value) : Options :=
  {| body := field props "body";
     requestJSON := field props "requestJSON";
     retryOnTooManyRequests := field props "retryOnTooManyRequests";
     returnJSON := field props "returnJSON";
     sendJSON := field props "sendJSON";
     throwOnError := field props "throwOnError" |}.

(** Lines 127-146: for an [input] that is not a [Request], the defaults
    for the headers, the method and the body, written to [init]. *)
Definition negotiate (o : Options) (input : value) (init : loc) : M E unit :=
  h ← get_heap;
  if negb (instanceof_Request h input) then
    (if truthy (requestJSON o) || truthy (returnJSON o) then
       default_header init "accept" "application/json"
     else skip);;
    (if truthy (sendJSON o) && is_defined (body o) then
       m ← get_prop init "method";
       (if is_nullish m then set_prop init "method" (VStr "POST")
        else skip);;
       default_header init "content-type" "application/json";;
       s ← stringify (body o);
       set_prop init "body" s
     else set_prop init "body" (body o))
  else skip.

(** Lines 113-146: the default parameter, the destructuring of a copy of
    [gretchenInit], the fresh [rest] object that becomes [init], and the
    negotiation. *)
Definition resolve (input gretchenInit : value) : M E (Options * loc) :=
  gretchenInit ← (if is_defined gretchenInit
                  then (mret gretchenInit : M E value)
                  else VRef <$> alloc (OPlain ∅));
  h ← get_heap;
  copy ← alloc (OPlain (own_props h gretchenInit));
  props ← read_props copy;
  let o := options_of props in
  init ← alloc (OPlain (omit recognized props));
  negotiate o input init;;
  mret (o, init).

(** Lines 150-171: the delay before a retry, when the response calls for
    one. *)
Definition retry_delay (o : Options) (nowEpoch : Z) (response : Response)
  : option Z :=
  if truthy (retryOnTooManyRequests o) && (status response =? 429)%Z then
    match Headers_get (resp_headers response) "retry-after" with
    | Some retryAfter =>
        if all_digits retryAfter then
          let retryAfterSeconds := Number retryAfter in
          Some (to_double (retryAfterSeconds * 1000))
        else
          match Date_parse retryAfter with
          | Some retryAfterEpoch =>
              Some (Z.max 0 (to_double (retryAfterEpoch - nowEpoch)))
          | None => None
          end
    | None => None
    end
  else None.

(** Lines 172-180: throw, or return the parsed body or the response. *)
Definition finalize (o : Options) (response : Response) : M E retval :=
  if truthy (throwOnError o) && negb (ok response) then
    throw (HTTPError (pretty (status response) ++ " " ++ statusText response)
                     response)
  else if truthy (returnJSON o) then
    match Response_json response with
    | inr j => mret (RJson j)
    | inl e => throw (ExternalError e)
    end
  else mret (RResponse response).

(** One iteration of the [for (;;)] loop: [None] is [continue]. *)
Definition attempt (o : Options) (input : value) (init : loc)
  : M E (option retval) :=
  nowEpoch ← now;
  response ← call_fetch input (VRef init);
  match retry_delay o nowEpoch response with
  | Some delay => sleep delay;; mret None
  | None => Some <$> finalize o response
  end.

(** The loop, cut after [fuel] iterations: the outcome is [None] when the
    loop is still running at the cut, and the world is the one reached. *)
Fixpoint transport_loop (fuel : nat) (o : Options) (input : value)
    (init : loc) (w : World E) : World E * option outcome :=
  match fuel with
  | O => (w, None)
  | S fuel' =>
      match attempt o input init w with
      | (w', inl e) => (w', Some (Thrown e))
      | (w', inr (Some v)) => (w', Some (Returned v))
      | (w', inr None) => transport_loop fuel' o input init w'
      end
  end.

Definition gretchen (fuel : nat) (input gretchenInit : value) (w : World E)
  : World E * option outcome :=
  match resolve input gretchenInit w with
  | (w', inl e) => (w', Some (Thrown e))
  | (w', inr (o, init)) => transport_loop fuel o input init w'
  end.

(** [{...a, ...b}]: the properties of [b] are copied over those of [a]. *)
Definition spread2 (h : gmap loc object) (a b : value) : gmap string value :=
  own_props h b ∪ own_props h a.

(** [createGretchen(init)]: the closure keeps the reference [initDefaults]
    and builds the merged object at every call. *)
Definition createGretchen (initDefaults : value)
  : nat → value → value → World E → World E * option outcome :=
  λ fuel input init w,
    match (h ← get_heap; alloc (OPlain (spread2 h initDefaults init))) w with
    | (w', inr merged) => gretchen fuel input (VRef merged) w'
    | (w', inl e) => (w', Some (Thrown e))
    end.

(** The log entries added between two worlds, newest first. *)
Definition new_events (w w' : World E) : list Event :=
  take (length (log w') - length (log w)) (log w').

End Gretchen.

(** ** Vocabulary of the statements *)

(** The defaulting of lines 130-132 and 139-141 as a function of the header
    list. *)
Definition with_default (hl : header_list) (name v : string) : header_list :=
  match Headers_get hl name with
  | None => Headers_set hl name v
  | Some _ => hl
  end.

(** Whether lines 128 and 134 take their branches. *)
Definition wants_accept (o : Options) : bool :=
  truthy (requestJSON o) || truthy (returnJSON o).

Definition wants_send (o : Options) : bool :=
  truthy (sendJSON o) && is_defined (body o).

(** The header list that results from the caller's list [hl]. *)
Definition negotiated_headers (o : Options) (hl : header_list) : header_list :=
  let hl1 := if wants_accept o
             then with_default hl "accept" "application/json" else hl in
  if wants_send o
  then with_default hl1 "content-type" "application/json" else hl1.

(** The delays of the suspensions of a log, oldest first. *)
Definition delays (evs : list Event) : list Z :=
  omap (λ ev, match ev with EvSleep d => Some d | EvFetch _ _ _ _ => None end)
       (reverse evs).

Section Vocabulary.
Context {E : Type} `{Platform E}.

(** Everything but the object at [init] is as before, and neither the
    platform nor the log was touched. *)
Definition frame_except (init : loc) (w w' : World E) : Prop :=
  env w' = env w ∧ log w' = log w ∧
  ∀ l, l ≠ init → is_Some (heap w !! l) → heap w' !! l = heap w !! l.

(** The outcome of lines 127-146 on an [init] object with properties [P]:
    the properties afterwards, for an input that is not a [Request]. *)
Definition negotiated (o : Options) (init : loc) (w w' : World E)
    (P P' : gmap string value) : Prop :=
  (∀ k, k ≠ "headers" → k ≠ "method" → k ≠ "body" → P' !! k = P !! k) ∧
  P' !! "method" =
    (if wants_send o && is_nullish (field P "method")
     then Some (VStr "POST") else P !! "method") ∧
  (if wants_send o
   then ∃ hS s, JSON_stringify hS (body o) = inr s ∧ P' !! "body" = Some s ∧
          ∀ l, l ≠ init → is_Some (heap w !! l) → hS !! l = heap w !! l
   else P' !! "body" = Some (body o)) ∧
  (if wants_accept o || wants_send o
   then ∃ hs hl, Headers_fill (heap w) (field P "headers") = Some hl ∧
          heap w !! hs = None ∧ P' !! "headers" = Some (VRef hs) ∧
          heap w' !! hs = Some (OHeaders (negotiated_headers o hl))
   else P' !! "headers" = P !! "headers").

(** The world after the transport call of an iteration started in [w]. *)
Definition after_fetch (w : World E) (input : value) (init : loc) : World E :=
  let '(e', res) := fetch (env w) (heap w) input (VRef init) in
  mkWorld (heap w) e' (EvFetch (heap w) input (VRef init) res :: log w).

(** The world after a suspension of [delay] milliseconds. *)
Definition after_sleep (w : World E) (delay : Z) : World E :=
  mkWorld (heap w) (setTimeout (env w) delay) (EvSleep delay :: log w).

(** Lines 172-180 as an outcome. *)
Definition finalized (o : Options) (response : Response) : outcome :=
  if truthy (throwOnError o) && negb (ok response) then
    Thrown (HTTPError (pretty (status response) ++ " " ++ statusText response)
                      response)
  else if truthy (returnJSON o) then
    match Response_json response with
    | inr j => Returned (RJson j)
    | inl e => Thrown (ExternalError e)
    end
  else Returned (RResponse response).

(** The events of a call in the order they happened. *)
Definition history (w w' : World E) : list Event :=
  reverse (new_events w w').

(** The outside world after the events [evs], oldest first, from [e]: a
    transport call and a suspension are the two steps that change it. *)
Fixpoint env_after (e : E) (evs : list Event) : E :=
  match evs with
  | [] => e
  | EvFetch h input init _ :: evs' => env_after (fetch e h input init).1 evs'
  | EvSleep delay :: evs' => env_after (setTimeout e delay) evs'
  end.

End Vocabulary.

(** ** A scripted platform for concrete runs *)

Module Demo.

(** The outside world: a clock and the results the transport will give,
    one per call. *)
Record state := mkState {
  clock : Z;
  script : list (string + Response)
}.

Definition dq : string := String (ascii_of_nat 34) EmptyString.

Definition quote (s : string) : string := dq ++ s ++ dq.

Definition stringify_prim (v : value) : string :=
  match v with
  | VBool true => "true"
  | VBool false => "false"
  | VNum n => pretty n
  | VStr s => quote s
  | _ => "null"
  end.

(** Enough of [JSON.stringify] for primitives and flat objects. *)
Definition stringify (h : gmap loc object) (v : value) : string + value :=
  match v with
  | VUndefined => inr VUndefined
  | VRef l =>
      match h !! l with
      | Some (OPlain props) =>
          inr (VStr ("{" ++
                     String.concat ","
                       (map (λ kv, quote (fst kv) ++ ":" ++ stringify_prim (snd kv))
                            (map_to_list props)) ++ "}"))
      | _ => inl "TypeError"
      end
  | _ => inr (VStr (stringify_prim v))
  end.

(** Enough of a JSON parser for the literals and for numbers. *)
Definition parse (r : Response) : string + json :=
  if String.eqb (resp_body r) "null" then inr JNull
  else if String.eqb (resp_body r) "true" then inr (JBool true)
  else if String.eqb (resp_body r) "false" then inr (JBool false)
  else if all_digits (resp_body r) then inr (JNum (Number_of_digits (resp_body r)))
  else inl "SyntaxError".

(** Two dates of the first minute of the epoch. *)
Definition parse_date (s : string) : option Z :=
  if String.eqb s "Thu, 01 Jan 1970 00:00:01 GMT" then Some 1000%Z
  else if String.eqb s "Thu, 01 Jan 1970 00:00:09 GMT" then Some 9000%Z
  else None.

(** A transport call takes 10 ms and gives the next scripted result; a
    timer fires exactly on time. *)
#[global] Instance platform : Platform state := {|
  Date_now e := clock e;
  fetch e _ _ _ :=
    match script e with
    | [] => (mkState (clock e + 10) [], inl "NetworkError")
    | r :: rs => (mkState (clock e + 10) rs, r)
    end;
  setTimeout e delay := mkState (clock e + delay) (script e);
  Date_parse := parse_date;
  JSON_stringify := stringify;
  Response_json := parse
|}.

(** A world with the given heap and script, at time 5000. *)
Definition world (h : gmap loc object) (sc : list (string + Response))
  : World state :=
  mkWorld h (mkState 5000 sc) [].

(** Inputs of the concrete runs. *)
Definition url : value := VStr "http://127.0.0.1/".

Definition options (retry returnJ throwE : bool) : Options :=
  {| body := VUndefined; requestJSON := VUndefined;
     retryOnTooManyRequests := VBool retry; returnJSON := VBool returnJ;
     sendJSON := VUndefined; throwOnError := VBool throwE |}.

Definition response (st : Z) (text : string) (hs : header_list) (b : string)
  : Response :=
  {| status := st; statusText := text; resp_headers := hs; resp_body := b |}.

Definition retry_seconds : Response :=
  response 429 "Too Many Requests" [("Retry-After", "2")] "".

Definition retry_date : Response :=
  response 429 "Too Many Requests"
    [("Retry-After", "Thu, 01 Jan 1970 00:00:09 GMT")] "".

Definition retry_past : Response :=
  response 429 "Too Many Requests"
    [("Retry-After", "Thu, 01 Jan 1970 00:00:01 GMT")] "".

Definition retry_invalid : Response :=
  response 429 "Too Many Requests" [("Retry-After", "foo")] "".

Definition success : Response := response 200 "OK" [] "12".

Definition failure : Response := response 500 "Internal Server Error" [] "".

End Demo.

(** ** Vocabulary of the statements on whole runs *)

(** The number of transport calls of a log. *)
Fixpoint fetches (evs : list Event) : nat :=
  match evs with
  | [] => 0
  | EvFetch _ _ _ _ :: evs' => S (fetches evs')
  | EvSleep _ :: evs' => fetches evs'
  end.

(** The number of suspensions of a log. *)
Fixpoint sleeps (evs : list Event) : nat :=
  match evs with
  | [] => 0
  | EvSleep _ :: evs' => S (sleeps evs')
  | EvFetch _ _ _ _ :: evs' => sleeps evs'
  end.

(** The log entries of the retried attempts [rs] (newest first), each a
    transport call that resolved to a response, followed by the suspension
    of the given delay. *)
Definition retry_events (h : gmap loc object) (input : value) (init : loc)
    (rs : list (Response * Z)) : list Event :=
  flat_map (λ rd, [EvSleep (snd rd); EvFetch h input (VRef init) (inr (fst rd))])
           rs.

(** ** A platform that always answers 429 *)

Module Busy.

(** The outside world is the clock; every transport call takes 10 ms and
    resolves to a 429 response with [Retry-After: 2]. *)
#[global] Instance platform : Platform Z := {|
  Date_now e := e;
  fetch e _ _ _ := ((e + 10)%Z, inr Demo.retry_seconds);
  setTimeout e delay := (e + delay)%Z;
  Date_parse := Demo.parse_date;
  JSON_stringify := Demo.stringify;
  Response_json := Demo.parse
|}.

Definition world (h : gmap loc object) : World Z := mkWorld h 0%Z [].

End Busy.

(** * The version script, [scripts/bump.ts] *)

Module Bump.

(** What the script does to the outside, newest first in a trace: a spawned
    command with its arguments, its spawn options and its exit status
    ([None] is [null], a subprocess ended by a signal), or a line on
    STDERR. *)
Inductive Action :=
| Spawn (command : string) (args : list string) (options : gmap string value)
        (status : option Z)
| ConsoleError (message : string).

(** The capabilities the script consumes, over a state [Sh] of the machine:
    [spawnSync], of which the script reads the status only, and
    [chalk.red]. *)
Class Shell (Sh : Type) := {
  spawnSync : Sh → string → list string → gmap string value → Sh * option Z;
  chalk_red : string → string
}.

Record Proc (Sh : Type) := mkProc {
  shell : Sh;
  trace : list Action
}.
Arguments mkProc {Sh} _ _.
Arguments shell {Sh} _.
Arguments trace {Sh} _.

(** A script step: it goes on with a value, or the process has exited with
    the argument given to [exit]. *)
Definition Script (Sh A : Type) : Type := Proc Sh → Proc Sh * (option Z + A).

#[export] Instance Script_ret {Sh} : MRet (Script Sh) := λ A a p, (p, inr a).

#[export] Instance Script_bind {Sh} : MBind (Script Sh) := λ A B f m p,
  match m p with
  | (p', inr a) => f a p'
  | (p', inl code) => (p', inl code)
  end.

(** [status === 0]. *)
Definition is_zero (status : option Z) : bool :=
  match status with
  | Some 0%Z => true
  | _ => false
  end.

Section Script.
Context {Sh : Type} `{Shell Sh}.

(** [exit(code)]: nothing runs after it. *)
Definition exit {A} (code : option Z) : Script Sh A := λ p, (p, inl code).

(** [console.error(message)]. *)
Definition console_error (message : string) : Script Sh unit := λ p,
  (mkProc (shell p) (ConsoleError message :: trace p), inr tt).

(** Lines 9-12. *)
Definition error {A} (message : string) : Script Sh A :=
  console_error (chalk_red message);;
  exit (Some 1%Z).

(** Lines 23-30: the options of the caller are spread first, then [shell]
    and [stdio] are set. *)
Definition run (command : string) (args : list string)
    (options : gmap string value) : Script Sh (option Z) := λ p,
  let opts := <["stdio" := VStr "inherit"]> (<["shell" := VBool true]> options) in
  let '(s', status) := spawnSync (shell p) command args opts in
  (mkProc s' (Spawn command args opts status :: trace p), inr status).

(** Lines 35-76, with [argv2] the third element of [argv] ([None] when
    there is none). *)
Definition bump (argv2 : option string) : Script Sh Empty_set :=
  newversion ← match argv2 with
               | Some v => mret v
               | None => error "A newversion argument must be provided"
               end;
  gitAddExitCode ← run "git" ["add"; "--"; "./CHANGELOG.md"] ∅;
  (if negb (is_zero gitAddExitCode)
   then error "Failed to stage CHANGELOG.md" else mret tt);;
  gitDiffExitCode ←
    run "git" ["diff"; "--quiet"; "--staged"; "--"; "./CHANGELOG.md"] ∅;
  (if is_zero gitDiffExitCode
   then error "CHANGELOG.md must be updated before bumping the version"
   else mret tt);;
  gitStashExitCode ← run "git" ["stash"; "--"; "./CHANGELOG.md"] ∅;
  (if negb (is_zero gitStashExitCode)
   then error "Failed to stash CHANGELOG.md" else mret tt);;
  npmVersionExitCode ← run "npm" ["version"; newversion] ∅;
  (if negb (is_zero npmVersionExitCode) then
     gitStashApplyExitCode ← run "git" ["stash"; "apply"] ∅;
     if negb (is_zero gitStashApplyExitCode)
     then exit gitStashApplyExitCode else mret tt
   else mret tt);;
  exit npmVersionExitCode.

(** The script from start to exit: the process at exit and the argument of
    [exit]. *)
Definition main (argv2 : option string) (p : Proc Sh) : Proc Sh * option Z :=
  match bump argv2 p with
  | (p', inl code) => (p', code)
  | (p', inr x) => match x with end
  end.

End Script.

(** The actions added between two processes, newest first. *)
Definition added {Sh} (p p' : Proc Sh) : list Action :=
  take (length (trace p') - length (trace p)) (trace p').

(** The commands of a trace, oldest first: command, arguments and status. *)
Definition commands (tr : list Action) : list (string * list string * option Z) :=
  omap (λ a, match a with
             | Spawn c args _ st => Some (c, args, st)
             | ConsoleError _ => None
             end)
       (reverse tr).

(** The lines written to STDERR, oldest first. *)
Definition messages (tr : list Action) : list string :=
  omap (λ a, match a with
             | ConsoleError m => Some m
             | Spawn _ _ _ _ => None
             end)
       (reverse tr).

(** A machine for concrete runs: the statuses the commands will give, one
    per spawn ([Some 0] when the list is used up), and no colours. *)
#[global] Instance scripted : Shell (list (option Z)) := {|
  spawnSync s _ _ _ :=
    match s with
    | [] => ([], Some 0%Z)
    | st :: s' => (s', st)
    end;
  chalk_red m := m
|}.

Definition start (statuses : list (option Z)) : Proc (list (option Z)) :=
  mkProc statuses [].

End Bump.

(** * Properties *)

(** ** Heap and property maps *)

Lemma fresh_unused (h : gmap loc object) : h !! fresh (dom h) = None.
Proof. apply not_elem_of_dom, is_fresh. Qed.

Lemma omit_lookup (ks : list string) (props : gmap string value) (k : string) :
  omit ks props !! k = if decide (k ∈ ks) then None else props !! k.
Proof.
  unfold omit. induction ks as [|a ks IH]; cbn [foldr].
  - rewrite decide_False; [done | apply not_elem_of_nil].
  - destruct (decide (a = k)) as [->|Hne].
    + rewrite lookup_delete_eq. rewrite decide_True by (apply elem_of_cons; by left). done.
    + rewrite lookup_delete_ne by done. rewrite IH.
      destruct (decide (k ∈ ks)) as [Hin|Hnin].
      * rewrite decide_True by (apply elem_of_cons; by right). done.
      * rewrite decide_False; [done |].
        intros [?|?]%elem_of_cons; congruence.
Qed.

Lemma omit_recognized_lookup (props : gmap string value) (k : string) :
  k ∉ recognized → omit recognized props !! k = props !! k.
Proof. intros Hk. rewrite omit_lookup. by rewrite decide_False. Qed.

Lemma omit_recognized_None (props : gmap string value) (k : string) :
  k ∈ recognized → omit recognized props !! k = None.
Proof. intros Hk. rewrite omit_lookup. by rewrite decide_True. Qed.

Lemma own_props_plain (h : gmap loc object) (l : loc) (P : gmap string value) :
  h !! l = Some (OPlain P) → own_props h (VRef l) = P.
Proof. intros Hl. unfold own_props. by rewrite Hl. Qed.

Lemma Headers_fill_insert_plain (h : gmap loc object) (init : loc)
    (Q0 Q : gmap string value) (v : value) :
  h !! init = Some (OPlain Q0) →
  Headers_fill (<[init := OPlain Q]> h) v = Headers_fill h v.
Proof.
  intros Hinit. unfold Headers_fill. destruct v as [| | | | |l]; try done.
  destruct (decide (l = init)) as [->|Hl].
  - by rewrite lookup_insert_eq, Hinit.
  - by rewrite lookup_insert_ne.
Qed.

Lemma Headers_fill_alloc_plain (h : gmap loc object) (l : loc)
    (Q : gmap string value) (v : value) :
  h !! l = None → Headers_fill (<[l := OPlain Q]> h) v = Headers_fill h v.
Proof.
  intros Hl. unfold Headers_fill. destruct v as [| | | | |l']; try done.
  destruct (decide (l' = l)) as [->|Hne].
  - by rewrite lookup_insert_eq, Hl.
  - by rewrite lookup_insert_ne.
Qed.

Lemma instanceof_Request_alloc_plain (h : gmap loc object) (l : loc)
    (Q : gmap string value) (v : value) :
  h !! l = None →
  instanceof_Request (<[l := OPlain Q]> h) v = instanceof_Request h v.
Proof.
  intros Hl. unfold instanceof_Request. destruct v as [| | | | |l']; try done.
  destruct (decide (l' = l)) as [->|Hne].
  - by rewrite lookup_insert_eq, Hl.
  - by rewrite lookup_insert_ne.
Qed.

(** ** The header container *)


#[local] Arguments own_props : simpl never.
#[local] Arguments field : simpl never.
#[local] Arguments Headers_fill : simpl never.
#[local] Arguments Headers_get : simpl never.
#[local] Arguments Headers_set : simpl never.
#[local] Arguments omit : simpl never.
#[local] Arguments instanceof_Request : simpl never.


Section GretchenProps.
Context {E : Type} `{Platform E}.

Ltac run := unfold mbind, M_bind, mret, M_ret, fmap, M_fmap, throw,
  get_heap, read_props, get_prop, now; simpl.

Lemma set_prop_run (l : loc) (k : string) (v : value) (w : World E)
    (P : gmap string value) :
  heap w !! l = Some (OPlain P) →
  set_prop l k v w =
  (mkWorld (<[l := OPlain (<[k := v]> P)]> (heap w)) (env w) (log w), inr tt).
Proof. intros Hl. unfold set_prop. by rewrite Hl. Qed.

(** What [default_header] does to a world whose [init] object has the
    properties [P]. *)
Lemma default_header_run (init : loc) (name v : string) (w : World E)
    (P : gmap string value) :
  heap w !! init = Some (OPlain P) →
  match Headers_fill (heap w) (field P "headers") with
  | Some hl =>
      let hs := fresh (dom (heap w)) in
      default_header init name v w =
      (mkWorld (<[hs := OHeaders (with_default hl name v)]>
                  (<[init := OPlain (<["headers" := VRef hs]> P)]> (heap w)))
               (env w) (log w), inr tt)
  | None => default_header init name v w = (w, inl (ExternalError "TypeError"))
  end.
Proof.
  intros Hinit. unfold default_header, new_Headers. run.
  rewrite (own_props_plain _ _ _ Hinit).
  destruct (Headers_fill (heap w) (field P "headers")) as [hl|] eqn:Hfill;
    [|reflexivity].
  simpl.
  pose proof (fresh_unused (heap w)) as Hfresh.
  set (hs := fresh (dom (heap w))) in *.
  assert (hs ≠ init) as Hne by (intros ->; congruence).
  unfold set_prop. simpl. rewrite lookup_insert_ne by done. rewrite Hinit.
  unfold set_if_absent. simpl.
  rewrite lookup_insert_ne by done. rewrite lookup_insert_eq.
  unfold with_default. destruct (Headers_get hl name) as [x|]; simpl.
  - by rewrite (insert_insert_ne _ init hs).
  - rewrite (insert_insert_ne _ init hs) by done.
    by rewrite insert_insert_eq.
Qed.


Lemma frame_except_refl (init : loc) (w : World E) : frame_except init w w.
Proof. by repeat split. Qed.

Lemma frame_except_trans (init : loc) (w1 w2 w3 : World E) :
  frame_except init w1 w2 → frame_except init w2 w3 → frame_except init w1 w3.
Proof.
  intros (He1 & Hl1 & Hf1) (He2 & Hl2 & Hf2). repeat split; [congruence..|].
  intros l Hne Hl. rewrite Hf2, Hf1; auto. rewrite Hf1; auto.
Qed.

Lemma default_header_spec (init : loc) (name v : string) (w w' : World E)
    (P : gmap string value) r :
  heap w !! init = Some (OPlain P) →
  default_header init name v w = (w', r) →
  frame_except init w w' ∧
  match r with
  | inl e => w' = w ∧ e = ExternalError "TypeError"
  | inr _ =>
      ∃ hs hl, Headers_fill (heap w) (field P "headers") = Some hl ∧
        heap w !! hs = None ∧ hs ≠ init ∧
        heap w' !! init = Some (OPlain (<["headers" := VRef hs]> P)) ∧
        heap w' !! hs = Some (OHeaders (with_default hl name v))
  end.
Proof.
  intros Hinit Hrun. pose proof (default_header_run init name v w P Hinit) as Hd.
  destruct (Headers_fill (heap w) (field P "headers")) as [hl|] eqn:Hfill.
  - simpl in Hd. rewrite Hd in Hrun. injection Hrun as <- <-.
    pose proof (fresh_unused (heap w)) as Hfresh.
    set (hs := fresh (dom (heap w))) in *.
    assert (hs ≠ init) as Hne by (intros ->; congruence).
    split.
    + repeat split; simpl. intros l Hl [x Hx].
      rewrite lookup_insert_ne by (intros <-; congruence).
      by rewrite lookup_insert_ne.
    + exists hs, hl. simpl. repeat split; try done.
      * rewrite lookup_insert_ne by done. by rewrite lookup_insert_eq.
      * by rewrite lookup_insert_eq.
  - rewrite Hd in Hrun. injection Hrun as <- <-. split; [apply frame_except_refl | done].
Qed.


Lemma negotiate_spec (o : Options) (input : value) (init : loc)
    (w w' : World E) (P : gmap string value) r :
  heap w !! init = Some (OPlain P) →
  negotiate o input init w = (w', r) →
  frame_except init w w' ∧
  (∀ e, r = inl e →
     (∃ n, e = ExternalError n) ∧ wants_accept o || wants_send o = true) ∧
  if instanceof_Request (heap w) input then w' = w ∧ r = inr tt
  else r = inr tt →
       ∃ P', heap w' !! init = Some (OPlain P') ∧ negotiated o init w w' P P'.
Proof.
  intros Hinit. unfold negotiate. run.
  destruct (instanceof_Request (heap w) input); simpl.
  { intros [= <- <-]. split; [apply frame_except_refl|]. split; [done|done]. }
  fold (wants_accept o). fold (wants_send o).
  (* the accept block *)
  assert (∃ w1 r1, (if wants_accept o
                    then default_header init "accept" "application/json"
                    else skip) w = (w1, r1)) as (w1 & r1 & Hacc)
    by (destruct (_ w) as [w1 r1]; eauto).
  rewrite Hacc.
  assert (frame_except init w w1 ∧
          match r1 with
          | inl e => ∃ n, e = ExternalError n
          | inr _ =>
              ∃ P1, heap w1 !! init = Some (OPlain P1) ∧
                (∀ k, k ≠ "headers" → P1 !! k = P !! k) ∧
                if wants_accept o
                then ∃ hs hl, Headers_fill (heap w) (field P "headers") = Some hl ∧
                       heap w !! hs = None ∧ hs ≠ init ∧
                       P1 !! "headers" = Some (VRef hs) ∧
                       heap w1 !! hs =
                         Some (OHeaders (with_default hl "accept" "application/json"))
                else w1 = w ∧ P1 = P
          end) as [Hf1 Hr1].
  { destruct (wants_accept o).
    - destruct (default_header_spec _ _ _ _ _ _ _ Hinit Hacc) as [Hf Hr].
      split; [done|]. destruct r1 as [e|[]].
      + unfold default_header, new_Headers in Hacc. revert Hacc. run.
        destruct (Headers_fill _ _); simpl; [|intros [= _ <-]; eauto].
        unfold set_prop; simpl. destruct (_ !! init) as [[]|]; simpl;
          unfold set_if_absent; simpl; repeat case_match; congruence.
      + destruct Hr as (hs & hl & Hfill & Hfresh & Hne & Hi & Hh).
        exists (<["headers" := VRef hs]> P). split; [done|]. split.
        * intros k Hk. by rewrite lookup_insert_ne.
        * exists hs, hl. repeat split; try done. by rewrite lookup_insert_eq.
    - revert Hacc. unfold skip. run. intros [= <- <-]. split; [apply frame_except_refl|].
      exists P. eauto. }
  destruct r1 as [e1|[]]; cbv beta iota.
  { intros [= <- <-]. split; [done|]. split; [|done].
    intros e [= <-]. split; [done|].
    destruct (wants_accept o); [done|].
    revert Hacc. unfold skip. run. done. }
  destruct Hr1 as (P1 & Hinit1 & Hsame1 & Hhdr1).
  destruct (wants_send o) eqn:Hsend.
  - (* the send block *)
    rewrite (own_props_plain _ _ _ Hinit1).
    assert (field P1 "method" = field P "method") as Hm
      by (unfold field; by rewrite Hsame1).
    assert (∃ P2 w2, (if is_nullish (field P1 "method")
                      then set_prop init "method" (VStr "POST") else skip) w1
                     = (w2, inr tt) ∧
              heap w2 = <[init := OPlain P2]> (heap w1) ∧ env w2 = env w1 ∧
              log w2 = log w1 ∧
              P2 = (if is_nullish (field P "method")
                    then <["method" := VStr "POST"]> P1 else P1))
      as (P2 & w2 & Hset & Hheap2 & Henv2 & Hlog2 & HP2).
    { rewrite Hm. destruct (is_nullish (field P "method")).
      - eexists _, _. rewrite (set_prop_run _ _ _ _ _ Hinit1). by repeat split.
      - exists P1, w1. unfold skip. run. repeat split. by rewrite insert_id. }
    rewrite Hset. cbv beta iota.
    assert (heap w2 !! init = Some (OPlain P2)) as Hinit2
      by (rewrite Hheap2; apply lookup_insert_eq).
    assert (frame_except init w1 w2) as Hf2.
    { repeat split; [done..|]. intros l Hl _. rewrite Hheap2.
      by rewrite lookup_insert_ne. }
    destruct (default_header init "content-type" "application/json" w2)
      as [w3 r3] eqn:Hct.
    destruct (default_header_spec _ _ _ _ _ _ _ Hinit2 Hct) as [Hf3 Hr3].
    destruct r3 as [e3|[]]; cbv beta iota.
    { destruct Hr3 as [-> ->]. intros [= <- <-].
      split; [by eapply frame_except_trans|]. split; [|done].
      intros e [= <-]. split; [eauto|apply orb_true_r]. }
    destruct Hr3 as (hs3 & hl3 & Hfill3 & Hfresh3 & Hne3 & Hinit3 & Hh3).
    unfold stringify. run.
    destruct (JSON_stringify (heap w3) (body o)) as [e|s] eqn:Hjson; simpl.
    { intros [= <- <-]. split.
      - eapply frame_except_trans; [done|]. by eapply frame_except_trans.
      - split; [|done]. intros ? [= <-]. split; [eauto|apply orb_true_r]. }
    rewrite (set_prop_run _ _ _ _ _ Hinit3). intros [= <- <-].
    assert (frame_except init w w3) as Hf03.
    { eapply frame_except_trans; [done|]. by eapply frame_except_trans. }
    split.
    { destruct Hf03 as (? & ? & Hfr). repeat split; [done..|]. simpl.
      intros l Hl Hsome. rewrite lookup_insert_ne by done. auto. }
    split; [done|]. intros _. eexists. simpl. split; [apply lookup_insert_eq|].
    assert (P2 !! "headers" = P1 !! "headers") as Hh21.
    { rewrite HP2.
      destruct (is_nullish (field P "method")); [by rewrite lookup_insert_ne|done]. }
    unfold negotiated. rewrite Hsend. cbn [andb].
    repeat split.
    + intros k Hk1 Hk2 Hk3. rewrite !lookup_insert_ne by done.
      rewrite HP2. destruct (is_nullish (field P "method")).
      * rewrite lookup_insert_ne by done. by apply Hsame1.
      * by apply Hsame1.
    + rewrite !lookup_insert_ne by done. rewrite HP2. simpl.
      destruct (is_nullish (field P "method"));
        [by rewrite lookup_insert_eq|by apply Hsame1].
    + exists (heap w3), s. split; [done|]. split; [by rewrite lookup_insert_eq|].
      destruct Hf03 as (_ & _ & Hfr). done.
    + rewrite orb_true_r.
      assert (heap w3 !! hs3 = heap (mkWorld (<[init:=OPlain (<["body":=s]>
                (<["headers":=VRef hs3]> P2))]> (heap w3)) (env w3) (log w3)) !! hs3)
        as Hkeep by (simpl; by rewrite lookup_insert_ne).
      unfold negotiated_headers. rewrite Hsend.
      destruct (wants_accept o).
      * destruct Hhdr1 as (hs1 & hl1 & Hfill1 & Hfresh1 & Hne1 & HP1h & Hh1).
        exists hs3, hl1. split; [done|].
        assert (hl3 = with_default hl1 "accept" "application/json") as ->.
        { rewrite Hheap2, (Headers_fill_insert_plain _ _ _ _ _ Hinit1) in Hfill3.
          unfold field in Hfill3. rewrite Hh21, HP1h in Hfill3. simpl in Hfill3.
          unfold Headers_fill in Hfill3. rewrite Hh1 in Hfill3.
          congruence. }
        split.
        { destruct (heap w !! hs3) as [x|] eqn:Hx; [|done].
          destruct Hf1 as (_ & _ & Hfr). destruct Hf2 as (_ & _ & Hfr2).
          rewrite <- Hfr in Hx by eauto. rewrite <- Hfr2 in Hx by eauto.
          congruence. }
        split; [|by rewrite <- Hkeep].
        rewrite lookup_insert_ne by done. by rewrite lookup_insert_eq.
      * destruct Hhdr1 as [-> ->].
        exists hs3, hl3. split.
        { rewrite Hheap2, (Headers_fill_insert_plain _ _ _ _ _ Hinit1) in Hfill3.
          unfold field in *. by rewrite Hh21 in Hfill3. }
        split.
        { destruct (heap w !! hs3) as [x|] eqn:Hx; [|done].
          destruct Hf2 as (_ & _ & Hfr2).
          rewrite <- Hfr2 in Hx by eauto. congruence. }
        split; [|by rewrite <- Hkeep].
        rewrite lookup_insert_ne by done. by rewrite lookup_insert_eq.
  - (* the body passed through *)
    rewrite (set_prop_run _ _ _ _ _ Hinit1). intros [= <- <-].
    split.
    { destruct Hf1 as (? & ? & Hfr). repeat split; [done..|]. simpl.
      intros l Hl Hsome. rewrite lookup_insert_ne by done. auto. }
    split; [done|]. intros _. eexists. simpl. split; [apply lookup_insert_eq|].
    unfold negotiated. rewrite Hsend. cbn [andb].
    repeat split.
    + intros k Hk1 Hk2 Hk3. rewrite lookup_insert_ne by done. by apply Hsame1.
    + rewrite lookup_insert_ne by done. simpl. by apply Hsame1.
    + by rewrite lookup_insert_eq.
    + rewrite orb_false_r. unfold negotiated_headers. rewrite Hsend.
      rewrite lookup_insert_ne by done.
      destruct (wants_accept o).
      * destruct Hhdr1 as (hs1 & hl1 & Hfill1 & Hfresh1 & Hne1 & HP1h & Hh1).
        exists hs1, hl1. repeat split; try done. simpl.
        by rewrite lookup_insert_ne.
      * by destruct Hhdr1 as [-> ->].
Qed.

(** [resolve]: the caller's heap is untouched, the options are those of
    the configuration, and [init] is a fresh object holding the
    pass-through options, negotiated unless the input is a [Request]. *)
Lemma resolve_spec (input gretchenInit : value) (w w' : World E) r :
  resolve input gretchenInit w = (w', r) →
  let props := own_props (heap w) gretchenInit in
  env w' = env w ∧ log w' = log w ∧
  (∀ l, is_Some (heap w !! l) → heap w' !! l = heap w !! l) ∧
  match r with
  | inl e =>
      (∃ n, e = ExternalError n) ∧
      instanceof_Request (heap w) input = false ∧
      wants_accept (options_of props) || wants_send (options_of props) = true
  | inr (o, init) =>
      o = options_of props ∧ heap w !! init = None ∧
      if instanceof_Request (heap w) input
      then heap w' !! init = Some (OPlain (omit recognized props))
      else ∃ P', heap w' !! init = Some (OPlain P') ∧
             negotiated o init w w' (omit recognized props) P'
  end.
Proof.
  intros Hrun props.
  (* the worlds before the negotiation *)
  assert (∃ w2 init,
    heap w2 !! init = Some (OPlain (omit recognized props)) ∧
    heap w !! init = None ∧
    env w2 = env w ∧ log w2 = log w ∧
    (∀ l, is_Some (heap w !! l) → heap w2 !! l = heap w !! l) ∧
    (∀ v, Headers_fill (heap w2) v = Headers_fill (heap w) v) ∧
    (∀ v, instanceof_Request (heap w2) v = instanceof_Request (heap w) v) ∧
    resolve input gretchenInit w =
      match negotiate (options_of props) input init w2 with
      | (w3, inr _) => (w3, inr (options_of props, init))
      | (w3, inl e) => (w3, inl e)
      end) as (w2 & init & Hinit2 & Hnew & He2 & Hl2 & Hext & Hfill & Hinst & Heq).
  { unfold resolve. run.
    destruct (is_defined gretchenInit) eqn:Hdef; simpl.
    - pose proof (fresh_unused (heap w)) as Hc.
      set (copy := fresh (dom (heap w))) in *.
      pose proof (fresh_unused (<[copy := OPlain props]> (heap w))) as Hi.
      set (init := fresh (dom (<[copy := OPlain props]> (heap w)))) in *.
      assert (init ≠ copy) as Hne by (intros Heq; rewrite Heq, lookup_insert_eq in Hi; done).
      rewrite lookup_insert_ne in Hi by done.
      rewrite (own_props_plain _ copy props) by apply lookup_insert_eq.
      exists (mkWorld (<[init := OPlain (omit recognized props)]>
                        (<[copy := OPlain props]> (heap w))) (env w) (log w)), init.
      simpl.
      split; [apply lookup_insert_eq|]. split; [done|].
      split; [done|]. split; [done|]. split; [|split; [|split]].
      + intros l [x Hx]. rewrite !lookup_insert_ne by congruence. done.
      + intros v. rewrite Headers_fill_alloc_plain
          by (by rewrite lookup_insert_ne).
        by apply Headers_fill_alloc_plain.
      + intros v. rewrite instanceof_Request_alloc_plain
          by (by rewrite lookup_insert_ne).
        by apply instanceof_Request_alloc_plain.
      + fold props. fold copy. fold init. reflexivity.
    - assert (props = ∅) as Hprops
        by (subst props; by destruct gretchenInit).
      pose proof (fresh_unused (heap w)) as H0.
      set (l0 := fresh (dom (heap w))) in *.
      set (h1 := <[l0 := OPlain ∅]> (heap w)).
      pose proof (fresh_unused h1) as Hc.
      set (copy := fresh (dom h1)) in *.
      assert (own_props h1 (VRef l0) = props) as Hp1.
      { rewrite Hprops. apply own_props_plain. apply lookup_insert_eq. }
      rewrite Hp1.
      pose proof (fresh_unused (<[copy := OPlain props]> h1)) as Hi.
      set (init := fresh (dom (<[copy := OPlain props]> h1))) in *.
      assert (init ≠ copy) as Hne by (intros Heq; rewrite Heq, lookup_insert_eq in Hi; done).
      rewrite lookup_insert_ne in Hi by done.
      assert (init ≠ l0) as Hne0
        by (intros Heq; subst h1; rewrite Heq, lookup_insert_eq in Hi; done).
      assert (copy ≠ l0) as Hnec
        by (intros Heq; subst h1; rewrite Heq, lookup_insert_eq in Hc; done).
      rewrite (own_props_plain _ copy props) by apply lookup_insert_eq.
      exists (mkWorld (<[init := OPlain (omit recognized props)]>
                        (<[copy := OPlain props]> h1)) (env w) (log w)), init.
      simpl.
      assert (heap w !! init = None) as Hi0
        by (subst h1; by rewrite lookup_insert_ne in Hi).
      assert (heap w !! copy = None) as Hc0
        by (subst h1; by rewrite lookup_insert_ne in Hc).
      split; [apply lookup_insert_eq|]. split; [done|].
      split; [done|]. split; [done|]. split; [|split; [|split]].
      + intros l [x Hx]. subst h1. rewrite !lookup_insert_ne by congruence. done.
      + intros v. rewrite Headers_fill_alloc_plain
          by (by rewrite lookup_insert_ne).
        rewrite Headers_fill_alloc_plain by done.
        by apply Headers_fill_alloc_plain.
      + intros v. rewrite instanceof_Request_alloc_plain
          by (by rewrite lookup_insert_ne).
        rewrite instanceof_Request_alloc_plain by done.
        by apply instanceof_Request_alloc_plain.
      + reflexivity. }
  rewrite Heq in Hrun. clear Heq.
  destruct (negotiate (options_of props) input init w2) as [w3 r3] eqn:Hneg.
  destruct (negotiate_spec _ _ _ _ _ _ _ Hinit2 Hneg) as ((He3 & Hl3 & Hfr3) & Herr & Hres).
  assert (∀ l, is_Some (heap w !! l) → heap w3 !! l = heap w !! l) as Hframe.
  { intros l Hl. rewrite Hfr3.
    - by apply Hext.
    - intros ->. destruct Hl; congruence.
    - by rewrite Hext. }
  destruct r3 as [e|[]]; injection Hrun as <- <-.
  { destruct (Herr e eq_refl) as [Hn Hw].
    repeat split; [congruence..|done|done| |done].
    rewrite Hinst in Hres. destruct (instanceof_Request (heap w) input); [|done].
    by destruct Hres. }
  repeat split; [congruence..|done|done|].
  rewrite Hinst in Hres. destruct (instanceof_Request (heap w) input).
  - destruct Hres as [-> _]. done.
  - destruct (Hres eq_refl) as (P' & HP' & Hk & Hm & Hb & Hh).
    exists P'. split; [done|]. repeat split; [done..| |].
    + destruct (wants_send _); [|done].
      destruct Hb as (hS & s & Hjson & Hbody & HhS). exists hS, s.
      repeat split; [done..|]. intros l Hl Hsome. rewrite HhS; auto.
      by rewrite Hext.
    + destruct (_ || _); [|done].
      destruct Hh as (hs & hl & Hf & Hfresh & Hph & Hhs). exists hs, hl.
      rewrite Hfill in Hf. repeat split; [done| |done..].
      destruct (heap w !! hs) as [x|] eqn:Hx; [|done].
      rewrite <- Hext in Hx by eauto. congruence.
Qed.

End GretchenProps.

(** ** The transport loop *)

Section LoopProps.
Context {E : Type} `{Platform E}.
Local Open Scope list_scope.

Lemma finalize_run (o : Options) (response : Response) (w : World E) :
  finalize o response w =
  (w, match finalized o response with
      | Returned v => inr v
      | Thrown e => inl e
      end).
Proof.
  unfold finalize, finalized.
  destruct (truthy (throwOnError o) && negb (ok response)); [done|].
  destruct (truthy (returnJSON o)); [|done].
  by destruct (Response_json response).
Qed.

(** One unfolding of the loop. *)
Lemma transport_loop_step (fuel : nat) (o : Options) (input : value)
    (init : loc) (w : World E) :
  transport_loop (S fuel) o input init w =
  match fetch (env w) (heap w) input (VRef init) with
  | (_, inl err) =>
      (after_fetch w input init, Some (Thrown (ExternalError err)))
  | (_, inr response) =>
      match retry_delay o (Date_now (env w)) response with
      | Some delay =>
          transport_loop fuel o input init
            (after_sleep (after_fetch w input init) delay)
      | None => (after_fetch w input init, Some (finalized o response))
      end
  end.
Proof.
  cbn [transport_loop]. unfold attempt, now, call_fetch, after_fetch.
  unfold mbind, M_bind. cbn beta iota.
  destruct (fetch (env w) (heap w) input (VRef init)) as [e' [err|response]];
    [done|]. cbn beta iota.
  destruct (retry_delay o (Date_now (env w)) response) as [delay|].
  - reflexivity.
  - unfold fmap, M_fmap. rewrite finalize_run.
    by destruct (finalized o response).
Qed.

Lemma after_fetch_heap (w : World E) (input : value) (init : loc) :
  heap (after_fetch w input init) = heap w.
Proof. unfold after_fetch. by destruct (fetch _ _ _ _). Qed.

Lemma after_fetch_log (w : World E) (input : value) (init : loc) :
  log (after_fetch w input init) =
  EvFetch (heap w) input (VRef init)
    (fetch (env w) (heap w) input (VRef init)).2 :: log w.
Proof. unfold after_fetch. by destruct (fetch _ _ _ _). Qed.

(** What a run of the loop leaves behind: the heap is untouched, the log
    grows by transport calls on [(input, init)] and by suspensions, and an
    outcome comes from the newest transport call. *)
Lemma transport_loop_log (fuel : nat) (o : Options) (input : value)
    (init : loc) (w : World E) :
  heap (transport_loop fuel o input init w).1 = heap w ∧
  ∃ evs, log (transport_loop fuel o input init w).1 = evs ++ log w ∧
    (∀ h i ini res, EvFetch h i ini res ∈ evs →
       h = heap w ∧ i = input ∧ ini = VRef init) ∧
    ∀ oc, (transport_loop fuel o input init w).2 = Some oc →
      ∃ res evs', evs = EvFetch (heap w) input (VRef init) res :: evs' ∧
        oc = match res with
             | inl err => Thrown (ExternalError err)
             | inr response => finalized o response
             end.
Proof.
  revert w. induction fuel as [|fuel IH]; intros w.
  - simpl. split; [done|]. exists []. split; [done|]. split.
    + intros ???? Hin. by apply elem_of_nil in Hin.
    + done.
  - rewrite transport_loop_step.
    pose proof (after_fetch_heap w input init) as Hh.
    pose proof (after_fetch_log w input init) as Hl.
    destruct (fetch (env w) (heap w) input (VRef init)) as [e' [err|response]].
    + simpl in *. split; [done|]. eexists [_]. split; [by rewrite Hl|]. split.
      * intros ???? [= -> -> -> ->]%list_elem_of_singleton. done.
      * intros oc [= <-]. eauto.
    + destruct (retry_delay o (Date_now (env w)) response) as [delay|].
      * destruct (IH (after_sleep (after_fetch w input init) delay))
          as (Hheap & evs & Hlog & Hev & Hout).
        simpl in Hheap, Hlog, Hev, Hout. rewrite Hh in Hheap, Hev, Hout.
        split; [done|].
        exists (evs ++ [EvSleep delay; EvFetch (heap w) input (VRef init) (inr response)]).
        split; [|split].
        -- rewrite Hlog, Hl. simpl. by rewrite <- app_assoc.
        -- intros h i ini res [Hin|Hin]%elem_of_app; [by apply (Hev _ _ _ res)|].
           apply elem_of_cons in Hin as [Hin|Hin]; [done|].
           apply list_elem_of_singleton in Hin. by injection Hin as -> -> -> ->.
        -- intros oc Hoc. destruct (Hout oc Hoc) as (res & evs' & -> & ->).
           eexists _, _. split; [|done]. reflexivity.
      * simpl in *. split; [done|]. eexists [_]. split; [by rewrite Hl|]. split.
        -- intros ???? [= -> -> -> ->]%list_elem_of_singleton. done.
        -- intros oc [= <-]. eauto.
Qed.

Lemma new_events_app (w w' : World E) (evs : list Event) :
  log w' = evs ++ log w → new_events w w' = evs.
Proof.
  intros Hl. unfold new_events. rewrite Hl, length_app.
  replace (length evs + length (log w) - length (log w)) with (length evs) by lia.
  apply take_app_length.
Qed.

(** A run of [gretchen]: either the resolution throws, without a transport
    call, or the loop runs on the resolved request. *)
Lemma gretchen_run (fuel : nat) (input gretchenInit : value) (w : World E) :
  (∃ w1 n, resolve input gretchenInit w = (w1, inl (ExternalError n)) ∧
     gretchen fuel input gretchenInit w = (w1, Some (Thrown (ExternalError n))) ∧
     new_events w w1 = []) ∨
  (∃ w1 o init, resolve input gretchenInit w = (w1, inr (o, init)) ∧
     gretchen fuel input gretchenInit w = transport_loop fuel o input init w1 ∧
     ∃ evs, new_events w (gretchen fuel input gretchenInit w).1 = evs ∧
       heap (gretchen fuel input gretchenInit w).1 = heap w1 ∧
       (∀ h i ini res, EvFetch h i ini res ∈ evs →
          h = heap w1 ∧ i = input ∧ ini = VRef init) ∧
       ∀ oc, (gretchen fuel input gretchenInit w).2 = Some oc →
         ∃ res evs', evs = EvFetch (heap w1) input (VRef init) res :: evs' ∧
           oc = match res with
                | inl err => Thrown (ExternalError err)
                | inr response => finalized o response
                end).
Proof.
  unfold gretchen.
  destruct (resolve input gretchenInit w) as [w1 r] eqn:Hres.
  pose proof (resolve_spec _ _ _ _ _ Hres) as (He & Hl & _ & Hr).
  destruct r as [e|[o init]].
  - left. destruct Hr as ([n ->] & _). exists w1, n. repeat split.
    apply new_events_app. by rewrite Hl.
  - right. exists w1, o, init. repeat split.
    destruct (transport_loop_log fuel o input init w1)
      as (Hheap & evs & Hlog & Hev & Hout).
    exists evs. split; [|done].
    apply new_events_app. by rewrite Hlog, Hl.
Qed.

Lemma gretchen_sends (fuel : nat) (input gretchenInit : value) (w : World E)
    h i ini res :
  EvFetch h i ini res ∈ new_events w (gretchen fuel input gretchenInit w).1 →
  ∃ w1 o init, resolve input gretchenInit w = (w1, inr (o, init)) ∧
    h = heap w1 ∧ i = input ∧ ini = VRef init.
Proof.
  intros Hin.
  destruct (gretchen_run fuel input gretchenInit w)
    as [(w1 & n & Hres & Hg & Hnew)|(w1 & o & init & Hres & Hg & evs & Hnew & _ & Hev & _)].
  - rewrite Hg in Hin. simpl in Hin. rewrite Hnew in Hin.
    by apply elem_of_nil in Hin.
  - rewrite Hnew in Hin. destruct (Hev _ _ _ _ Hin) as (-> & -> & ->).
    by exists w1, o, init.
Qed.

End LoopProps.

(** ** The value of a digit string *)

Lemma Number_of_digits_snoc (s : string) (c : ascii) :
  Number_of_digits (s ++ String c EmptyString)%string =
  (10 * Number_of_digits s + digit_value c)%Z.
Proof.
  unfold Number_of_digits.
  assert (list_ascii_of_string (s ++ String c EmptyString)%string =
          (list_ascii_of_string s ++ [c])%list) as ->.
  { induction s as [|a s IH]; [done|]. simpl. by rewrite IH. }
  by rewrite fold_left_app.
Qed.

Lemma Number_of_digits_nonneg (s : string) : (0 ≤ Number_of_digits s)%Z.
Proof.
  unfold Number_of_digits.
  assert (∀ l acc, (0 ≤ acc)%Z →
            (0 ≤ fold_left (λ acc c, 10 * acc + digit_value c) l acc)%Z) as Hfold.
  { induction l as [|c l IH]; intros acc Hacc; [done|]. simpl. apply IH.
    unfold digit_value. lia. }
  by apply Hfold.
Qed.

Example Number_of_digits_120 : Number_of_digits "120" = 120%Z.
Proof. reflexivity. Qed.

Example Number_of_digits_leading_zeros : Number_of_digits "007" = 7%Z.
Proof. reflexivity. Qed.

(** ** Double precision *)

Lemma nearest_double_nonneg (a : Z) : (0 ≤ a → 0 ≤ nearest_double a)%Z.
Proof.
  intros Ha. unfold nearest_double.
  destruct (a <? 2 ^ 53)%Z; [done|]. cbv zeta.
  destruct (Infinity <=? _)%Z.
  - unfold Infinity. by apply Z.pow_nonneg.
  - apply Z.shiftl_nonneg.
    assert (0 ≤ Z.shiftr a (Z.log2 a - 52))%Z by by apply Z.shiftr_nonneg.
    destruct (_ || _); lia.
Qed.

Lemma to_double_nonneg (n : Z) : (0 ≤ n → 0 ≤ to_double n)%Z.
Proof.
  intros Hn. unfold to_double.
  destruct (Z.ltb_spec n 0); [lia|]. by apply nearest_double_nonneg.
Qed.

(** Below [2^53] in absolute value an integer is a double. *)
Lemma to_double_exact (n : Z) : (- 2 ^ 53 < n < 2 ^ 53 → to_double n = n)%Z.
Proof.
  intros Hn. unfold to_double, nearest_double.
  destruct (Z.ltb_spec n 0).
  - destruct (Z.ltb_spec (- n) (2 ^ 53)); lia.
  - destruct (Z.ltb_spec n (2 ^ 53)); lia.
Qed.

Lemma Number_exact (s : string) :
  (Number_of_digits s * 1000 < 2 ^ 53 →
   to_double (Number s * 1000) = Number_of_digits s * 1000)%Z.
Proof.
  intros Hs. pose proof (Number_of_digits_nonneg s) as H0. unfold Number.
  rewrite (to_double_exact (Number_of_digits s)) by lia.
  apply to_double_exact. lia.
Qed.

Example to_double_tie_to_even :
  to_double 9007199254740993 = 9007199254740992%Z ∧
  to_double 9007199254740995 = 9007199254740996%Z.
Proof. split; reflexivity. Qed.

Example to_double_overflow :
  to_double (2 ^ 1024 - 2 ^ 970) = Infinity ∧
  to_double (2 ^ 1024 - 2 ^ 970 - 1) = (2 ^ 1024 - 2 ^ 971)%Z ∧
  to_double (Infinity * 1000) = Infinity.
Proof. split_and!; vm_compute; reflexivity. Qed.

(** ** The history of a call *)

Section RunHistory.
Context {E : Type} `{Platform E}.
Local Open Scope list_scope.

(** The iterations of the loop, one after the other: every transport call
    is made on the resolved request, in the outside world that the earlier
    events left; a rejection or a response that asks for no retry is the
    last event and gives the outcome; a response that asks for a retry is
    followed by the suspension, and then by the next transport call unless
    the loop is cut there. *)
Lemma transport_loop_history (fuel : nat) (o : Options) (input : value)
    (init : loc) (w : World E) :
  ∃ hist,
    log (transport_loop fuel o input init w).1 = reverse hist ++ log w ∧
    match hist with
    | [] => (transport_loop fuel o input init w).2 = None
    | ev :: _ => ∃ res, ev = EvFetch (heap w) input (VRef init) res
    end ∧
    ∀ past h i ini res future,
      hist = past ++ EvFetch h i ini res :: future →
      h = heap w ∧ i = input ∧ ini = VRef init ∧
      res = (fetch (env_after (env w) past) (heap w) input (VRef init)).2 ∧
      match res with
      | inl err =>
          future = [] ∧
          (transport_loop fuel o input init w).2 =
            Some (Thrown (ExternalError err))
      | inr r =>
          match retry_delay o (Date_now (env_after (env w) past)) r with
          | None =>
              future = [] ∧
              (transport_loop fuel o input init w).2 = Some (finalized o r)
          | Some d =>
              ∃ rest, future = EvSleep d :: rest ∧
                match rest with
                | [] => (transport_loop fuel o input init w).2 = None
                | ev :: _ => ∃ res', ev = EvFetch (heap w) input (VRef init) res'
                end
          end
      end.
Proof.
  revert w. induction fuel as [|fuel IH]; intros w.
  { exists []. split; [done|]. split; [done|].
    intros past h i ini res future Hs. by destruct past. }
  rewrite transport_loop_step.
  pose proof (after_fetch_log w input init) as Hlog1.
  destruct (fetch (env w) (heap w) input (VRef init)) as [e1 res1] eqn:Hf.
  simpl in Hlog1.
  destruct res1 as [err|r];
    [|destruct (retry_delay o (Date_now (env w)) r) as [d|] eqn:Hd].
  - exists [EvFetch (heap w) input (VRef init) (inl err)].
    cbn [fst snd]. split; [by rewrite Hlog1|]. split; [eauto|].
    intros past h i ini res future Hs.
    destruct past as [|p1 [|p2 past]]; simplify_eq/=.
    rewrite Hf. by split_and!.
  - set (w2 := after_sleep (after_fetch w input init) d).
    assert (heap w2 = heap w) as Hh2 by (unfold w2; simpl; apply after_fetch_heap).
    assert (env w2 = setTimeout e1 d) as He2.
    { unfold w2, after_sleep, after_fetch. by rewrite Hf. }
    assert (log w2 = EvSleep d :: EvFetch (heap w) input (VRef init) (inr r)
                       :: log w) as Hl2.
    { unfold w2. simpl. by rewrite Hlog1. }
    destruct (IH w2) as (hist2 & Hlog & Hhead & Hall).
    rewrite Hh2 in Hhead, Hall. rewrite He2 in Hall.
    exists (EvFetch (heap w) input (VRef init) (inr r) :: EvSleep d :: hist2).
    split; [|split; [eauto|]].
    { rewrite Hlog, Hl2, !reverse_cons, <- !app_assoc. done. }
    intros past h i ini res future Hs.
    destruct past as [|p1 [|p2 past]]; simplify_eq/=.
    + rewrite Hf, Hd. split_and!; try done. by exists hist2.
    + rewrite Hf. simpl. by apply Hall.
  - exists [EvFetch (heap w) input (VRef init) (inr r)].
    cbn [fst snd]. split; [by rewrite Hlog1|]. split; [eauto|].
    intros past h i ini res future Hs.
    destruct past as [|p1 [|p2 past]]; simplify_eq/=.
    rewrite Hf. simpl. rewrite Hd. by split_and!.
Qed.

(** The same for a call: the request is the one the resolution of the
    configuration gave, the options are those read from the configuration,
    and the outside world of the first transport call is the one of the
    call. *)
Lemma gretchen_history (fuel : nat) (input gretchenInit : value)
    (w : World E) past h i ini res future :
  history w (gretchen fuel input gretchenInit w).1 =
    past ++ EvFetch h i ini res :: future →
  let o := options_of (own_props (heap w) gretchenInit) in
  i = input ∧
  res = (fetch (env_after (env w) past) h i ini).2 ∧
  match res with
  | inl err =>
      future = [] ∧
      (gretchen fuel input gretchenInit w).2 = Some (Thrown (ExternalError err))
  | inr r =>
      match retry_delay o (Date_now (env_after (env w) past)) r with
      | None =>
          future = [] ∧
          (gretchen fuel input gretchenInit w).2 = Some (finalized o r)
      | Some d =>
          ∃ rest, future = EvSleep d :: rest ∧
            match rest with
            | [] => (gretchen fuel input gretchenInit w).2 = None
            | ev :: _ => ∃ res', ev = EvFetch h i ini res'
            end
      end
  end.
Proof.
  intros Hs o. unfold history in Hs.
  destruct (gretchen_run fuel input gretchenInit w)
    as [(w1 & n & Hres & Hg & Hnew)|(w1 & o' & init & Hres & Hg & _)].
  { rewrite Hg in Hs. simpl in Hs. rewrite Hnew in Hs. by destruct past. }
  pose proof (resolve_spec _ _ _ _ _ Hres) as (He & Hl & _ & Ho & _).
  fold o in Ho. subst o'.
  destruct (transport_loop_history fuel o input init w1)
    as (hist & Hlog & _ & Hall).
  rewrite <- Hg in Hlog, Hall. rewrite Hl in Hlog.
  rewrite (new_events_app _ _ _ Hlog), reverse_involutive in Hs.
  destruct (Hall _ _ _ _ _ _ Hs) as (-> & -> & -> & Hr & Hm).
  rewrite He in Hr, Hm. by split_and!.
Qed.

End RunHistory.

(** ** Retry and finalization *)

Section RetryProps.
Context {E : Type} `{Platform E}.
Local Open Scope list_scope.

(** C1, as amended.  Take any transport call of any call of [gretchen]
    whose configuration has [retryOnTooManyRequests] truthy, and let it
    resolve to a response of status 429 with a [Retry-After] header.  Then
    the call suspends and the request goes out again: the next event is the
    suspension, and what follows it, unless the loop is cut there, is a
    transport call with the same request.  For a value of decimal digits
    the delay is [Number(value) * 1000], computed in doubles, which is the
    value times 1000 whenever that product is below 2^53; for any other
    value that the [Date] constructor parses it is
    [max(0, parsed - nowEpoch)], never negative, the difference being the
    exact one whenever it is below 2^53 in absolute value.  [nowEpoch] is
    the clock of the outside world as the earlier events of the call left
    it, that is, read again at the top of this iteration. *)
Theorem retry_on_429 (fuel : nat) (input gretchenInit : value) (w : World E)
    (past future : list Event) h i ini (response : Response)
    (retryAfter : string) :
  history w (gretchen fuel input gretchenInit w).1 =
    past ++ EvFetch h i ini (inr response) :: future →
  truthy (field (own_props (heap w) gretchenInit) "retryOnTooManyRequests")
    = true →
  status response = 429%Z →
  Headers_get (resp_headers response) "retry-after" = Some retryAfter →
  let nowEpoch := Date_now (env_after (env w) past) in
  let retried_after (delay : Z) :=
    ∃ rest, future = EvSleep delay :: rest ∧
      match rest with
      | [] => (gretchen fuel input gretchenInit w).2 = None
      | ev :: _ => ∃ res, ev = EvFetch h i ini res
      end in
  (fetch (env_after (env w) past) h i ini).2 = inr response ∧
  (all_digits retryAfter = true →
     retried_after (to_double (Number retryAfter * 1000)) ∧
     (Number_of_digits retryAfter * 1000 < 2 ^ 53 →
      to_double (Number retryAfter * 1000) =
      Number_of_digits retryAfter * 1000)%Z) ∧
  (all_digits retryAfter = false →
     ∀ epoch, Date_parse retryAfter = Some epoch →
       retried_after (Z.max 0 (to_double (epoch - nowEpoch))) ∧
       (0 ≤ Z.max 0 (to_double (epoch - nowEpoch)))%Z ∧
       (- 2 ^ 53 < epoch - nowEpoch < 2 ^ 53 →
        Z.max 0 (to_double (epoch - nowEpoch)) =
        Z.max 0 (epoch - nowEpoch))%Z).
Proof.
  intros Hs Hflag Hst Hhdr nowEpoch retried_after.
  pose proof (gretchen_history _ _ _ _ _ _ _ _ _ _ Hs) as Hh.
  cbv zeta in Hh. destruct Hh as (_ & Hres & Hm).
  unfold retry_delay in Hm. cbn [options_of retryOnTooManyRequests] in Hm.
  rewrite Hflag, (proj2 (Z.eqb_eq _ _) Hst), Hhdr in Hm. cbn [andb] in Hm.
  split; [done|]. split.
  - intros Hd. rewrite Hd in Hm. split; [exact Hm | apply Number_exact].
  - intros Hd epoch Hp. rewrite Hd, Hp in Hm.
    split; [exact Hm|]. split; [apply Z.le_max_l|].
    intros Hb. by rewrite to_double_exact.
Qed.

(** C2, as amended.  Take any transport call of any call of [gretchen] that
    resolved to a response.  The response is not a retriable 429 when
    [retryOnTooManyRequests] is falsy in the configuration, or the status
    is not 429, or there is no [Retry-After] header, or its value is
    neither decimal digits nor a string that the [Date] constructor
    parses.  Exactly then it is the last event of the call: there is no
    suspension and no further transport call, and the call ends with the
    finalization of that response, an [HTTPError] when [throwOnError] is
    truthy and the status is outside 200-299, else the parsed body (or the
    error of the parser) when [returnJSON] is truthy, else the response
    itself.  Otherwise a suspension follows, and the call does not end
    before a further event. *)
Theorem terminal_response (fuel : nat) (input gretchenInit : value)
    (w : World E) (past future : list Event) h i ini (response : Response) :
  history w (gretchen fuel input gretchenInit w).1 =
    past ++ EvFetch h i ini (inr response) :: future →
  let props := own_props (heap w) gretchenInit in
  let not_retriable :=
    truthy (field props "retryOnTooManyRequests") = false ∨
    status response ≠ 429%Z ∨
    Headers_get (resp_headers response) "retry-after" = None ∨
    (∃ v, Headers_get (resp_headers response) "retry-after" = Some v ∧
          all_digits v = false ∧ Date_parse v = None) in
  let outcome := (gretchen fuel input gretchenInit w).2 in
  (not_retriable ↔ future = []) ∧
  (not_retriable →
     (truthy (field props "throwOnError") = true → ok response = false →
        outcome =
        Some (Thrown (HTTPError
                (pretty (status response) ++ " " ++ statusText response)%string
                response))) ∧
     (truthy (field props "throwOnError") && negb (ok response) = false →
        outcome =
        Some (if truthy (field props "returnJSON")
              then match Response_json response with
                   | inr j => Returned (RJson j)
                   | inl e => Thrown (ExternalError e)
                   end
              else Returned (RResponse response)))) ∧
  (¬ not_retriable →
     ∃ delay rest, future = EvSleep delay :: rest ∧
       ∀ oc, outcome = Some oc → rest ≠ []).
Proof.
  intros Hs props not_retriable outcome.
  pose proof (gretchen_history _ _ _ _ _ _ _ _ _ _ Hs) as Hh.
  cbv zeta in Hh. destruct Hh as (_ & _ & Hm). fold props outcome in Hm.
  set (nowEpoch := Date_now (env_after (env w) past)) in Hm.
  assert (retry_delay (options_of props) nowEpoch response = None
          ↔ not_retriable) as Hiff.
  { unfold retry_delay, not_retriable.
    cbn [options_of retryOnTooManyRequests].
    destruct (truthy (field props "retryOnTooManyRequests")); simpl;
      [|by intuition].
    destruct (Z.eqb_spec (status response) 429) as [Hst|Hst]; [|by intuition].
    destruct (Headers_get (resp_headers response) "retry-after") as [v|];
      [|by intuition].
    destruct (all_digits v) eqn:Hd.
    - split; [done|]. intros [?|[?|[?|(v' & [= <-] & ? & ?)]]]; congruence.
    - destruct (Date_parse v) as [epoch|] eqn:Hp.
      + split; [done|]. intros [?|[?|[?|(v' & [= <-] & ? & ?)]]]; congruence.
      + split; [|done]. intros _. right. right. right. by exists v. }
  destruct (retry_delay (options_of props) nowEpoch response) as [d|] eqn:Hd.
  - destruct Hm as (rest & -> & Hrest).
    assert (¬ not_retriable) as Hnr by (intros Hnr; by apply Hiff in Hnr).
    split; [split; [done|done]|]. split; [done|].
    intros _. exists d, rest. split; [done|].
    intros oc Hoc ->. congruence.
  - destruct Hm as [-> Hout].
    assert not_retriable as Hnr by by apply Hiff.
    split; [done|]. split; [|done].
    intros _. rewrite Hout. unfold finalized.
    cbn [options_of throwOnError returnJSON]. split.
    + intros Ht Hok. by rewrite Ht, Hok.
    + intros Hno. by rewrite Hno.
Qed.

End RetryProps.

Lemma retry_on_429_witness :
  let w := Demo.world
             {[ 0 := OPlain {[ "retryOnTooManyRequests" := VBool true ]} ]}
             [inr Demo.retry_date; inr Demo.retry_past;
              inr Demo.retry_seconds; inr Demo.success] in
  let w' := (gretchen 4 Demo.url (VRef 0) w).1 in
  let sent r := EvFetch (heap w') Demo.url (VRef 2) (inr r) in
  history w w' =
    [sent Demo.retry_date; EvSleep 4000; sent Demo.retry_past; EvSleep 0;
     sent Demo.retry_seconds; EvSleep 2000; sent Demo.success] ∧
  (∃ rest, [EvSleep 0; sent Demo.retry_seconds; EvSleep 2000;
            sent Demo.success] =
           EvSleep (Z.max 0 (to_double (1000 - 9010))) :: rest) ∧
  (∃ rest, [EvSleep 2000; sent Demo.success] =
           EvSleep (to_double (Number "2" * 1000)) :: rest).
Proof.
  intros w w' sent.
  assert (history w w' =
          [sent Demo.retry_date; EvSleep 4000; sent Demo.retry_past;
           EvSleep 0; sent Demo.retry_seconds; EvSleep 2000;
           sent Demo.success]) as Hh by (vm_compute; reflexivity).
  split; [exact Hh|]. split.
  - pose proof (retry_on_429 4 Demo.url (VRef 0) w
                  [sent Demo.retry_date; EvSleep 4000]
                  [EvSleep 0; sent Demo.retry_seconds; EvSleep 2000;
                   sent Demo.success]
                  (heap w') Demo.url (VRef 2) Demo.retry_past
                  "Thu, 01 Jan 1970 00:00:01 GMT"
                  Hh eq_refl eq_refl eq_refl) as Hr.
    cbv zeta in Hr. destruct Hr as (_ & _ & Hdate).
    destruct (Hdate eq_refl 1000%Z eq_refl) as ((rest & Hrest & _) & _).
    exists rest. exact Hrest.
  - pose proof (retry_on_429 4 Demo.url (VRef 0) w
                  [sent Demo.retry_date; EvSleep 4000; sent Demo.retry_past;
                   EvSleep 0]
                  [EvSleep 2000; sent Demo.success]
                  (heap w') Demo.url (VRef 2) Demo.retry_seconds "2"
                  Hh eq_refl eq_refl eq_refl) as Hr.
    cbv zeta in Hr. destruct Hr as (_ & Hdigits & _).
    destruct (Hdigits eq_refl) as ((rest & Hrest & _) & _).
    exists rest. exact Hrest.
Defined.

(** C1, as stated, fails: the delay is not always the value times 1000.
    The value 9007199254740993 (2^53 + 1) is not a double; [Number] gives
    9007199254740992, and the call suspends for 9007199254740992000
    milliseconds. *)
Lemma retry_on_429_not_exact :
  let too_many :=
    Demo.response 429 "Too Many Requests"
      [("Retry-After", "9007199254740993")] "" in
  let w := Demo.world
             {[ 0 := OPlain {[ "retryOnTooManyRequests" := VBool true ]} ]}
             [inr too_many; inr Demo.success] in
  all_digits "9007199254740993" = true ∧
  Number_of_digits "9007199254740993" = 9007199254740993%Z ∧
  delays (new_events w (gretchen 2 Demo.url (VRef 0) w).1) =
    [9007199254740992000%Z] ∧
  (9007199254740992000 ≠ 9007199254740993 * 1000)%Z.
Proof.
  vm_compute. split_and!; congruence.
Qed.

Lemma terminal_response_witness :
  let w := Demo.world
             {[ 0 := OPlain {[ "retryOnTooManyRequests" := VBool true ]} ]}
             [inr Demo.retry_invalid; inr Demo.success] in
  (gretchen 3 Demo.url (VRef 0) w).2 =
  Some (Returned (RResponse Demo.retry_invalid)).
Proof.
  intros w.
  assert (history w (gretchen 3 Demo.url (VRef 0) w).1 =
          [EvFetch (heap (gretchen 3 Demo.url (VRef 0) w).1) Demo.url (VRef 2)
             (inr Demo.retry_invalid)]) as Hh by (vm_compute; reflexivity).
  pose proof (terminal_response 3 Demo.url (VRef 0) w [] [] _ _ _ _ Hh) as Ht.
  cbv zeta in Ht. destruct Ht as (_ & Hend & _).
  apply Hend; [|reflexivity].
  right. right. right. exists "foo". by split_and!.
Defined.

(** C2, as stated, fails: with [returnJSON] set and no retry in play, the
    terminal response (status 200) is neither returned itself nor thrown;
    the call resolves to its parsed body. *)
Lemma terminal_response_not_returned_directly :
  let cfg : gmap string value := {[ "returnJSON" := VBool true ]} in
  let w := Demo.world {[ 0 := OPlain cfg ]} [inr Demo.success] in
  truthy (field cfg "retryOnTooManyRequests") = false ∧
  truthy (field cfg "throwOnError") = false ∧
  (gretchen 1 Demo.url (VRef 0) w).2 = Some (Returned (RJson (JNum 12))) ∧
  (gretchen 1 Demo.url (VRef 0) w).2 ≠ Some (Returned (RResponse Demo.success)) ∧
  ∀ e, (gretchen 1 Demo.url (VRef 0) w).2 ≠ Some (Thrown e).
Proof.
  vm_compute. repeat split; congruence.
Qed.

(** ** Errors *)

Lemma ok_false_iff (r : Response) :
  ok r = false ↔ (status r < 200 ∨ 299 < status r)%Z.
Proof.
  unfold ok. rewrite andb_false_iff, !Z.leb_gt. reflexivity.
Qed.

Section ErrorProps.
Context {E : Type} `{Platform E}.
Local Open Scope list_scope.

(** C3.  A call of [gretchen] that ends fails with an [HTTPError] if and
    only if [throwOnError] is truthy in its configuration and the terminal
    response, the one of the newest transport call, has a status outside
    200-299.  The message is the status in decimal, a space and the status
    text, so it starts with 500 for a status of 500, and the error carries
    that response.  Without [throwOnError] no [HTTPError] is ever
    observed.  And whenever a response with a status outside 200-299 is the
    last event of a call with [throwOnError] truthy, the call has ended
    with that error. *)
Theorem http_error_iff :
  (∀ fuel input gretchenInit (w w' : World E) oc,
     gretchen fuel input gretchenInit w = (w', Some oc) →
     let props := own_props (heap w) gretchenInit in
     ((∃ msg r, oc = Thrown (HTTPError msg r)) ↔
      truthy (field props "throwOnError") = true ∧
      ∃ h i ini r rest,
        new_events w w' = EvFetch h i ini (inr r) :: rest ∧
        (status r < 200 ∨ 299 < status r)%Z) ∧
     (∀ msg r, oc = Thrown (HTTPError msg r) →
        msg = (pretty (status r) ++ " " ++ statusText r)%string ∧
        (status r = 500%Z → msg = ("500 " ++ statusText r)%string) ∧
        ∃ h i ini rest, new_events w w' = EvFetch h i ini (inr r) :: rest) ∧
     (truthy (field props "throwOnError") = false →
        ∀ msg r, oc ≠ Thrown (HTTPError msg r))) ∧
  (∀ fuel input gretchenInit (w : World E) past h i ini response,
     history w (gretchen fuel input gretchenInit w).1 =
       past ++ [EvFetch h i ini (inr response)] →
     truthy (field (own_props (heap w) gretchenInit) "throwOnError") = true →
     (status response < 200 ∨ 299 < status response)%Z →
     (gretchen fuel input gretchenInit w).2 =
     Some (Thrown (HTTPError
             (pretty (status response) ++ " " ++ statusText response)%string
             response))).
Proof.
  split.
  - intros fuel input gretchenInit w w' oc Hg props.
    set (o := options_of props).
    change (field props "throwOnError") with (throwOnError o).
    assert (∀ msg r, oc = Thrown (HTTPError msg r) →
              truthy (throwOnError o) = true ∧ ok r = false ∧
              msg = (pretty (status r) ++ " " ++ statusText r)%string ∧
              ∃ h i ini rest, new_events w w' = EvFetch h i ini (inr r) :: rest)
      as Hthrown.
    { intros msg r ->.
      destruct (gretchen_run fuel input gretchenInit w)
        as [(w1 & n & Hres & Hg' & Hnew)
           |(w1 & o' & init & Hres & Hg' & evs & Hnew & _ & _ & Hout)].
      - rewrite Hg in Hg'. done.
      - pose proof (resolve_spec _ _ _ _ _ Hres) as (_ & _ & _ & Ho & _).
        rewrite Hg in Hnew, Hout. simpl in Hnew, Hout.
        destruct (Hout _ eq_refl) as (res & evs' & -> & Hoc).
        destruct res as [err|response]; [done|].
        unfold finalized in Hoc. subst o'. fold props o in Hoc.
        destruct (truthy (throwOnError o)) eqn:Ht, (ok response) eqn:Hok;
          simpl in Hoc;
          try (repeat case_match; congruence).
        injection Hoc as -> ->. repeat split; eauto. }
    split; [split|split].
    + intros (msg & r & Hoc). destruct (Hthrown _ _ Hoc) as (Ht & Hok & _ & Hev).
      split; [done|]. destruct Hev as (h & i & ini & rest & Hev).
      exists h, i, ini, r, rest. split; [done|]. by apply ok_false_iff.
    + intros (Ht & h & i & ini & r & rest & Hev & Hst).
      destruct (gretchen_run fuel input gretchenInit w)
        as [(w1 & n & Hres & Hg' & Hnew)
           |(w1 & o' & init & Hres & Hg' & evs & Hnew & _ & _ & Hout)].
      * rewrite Hg in Hg'. injection Hg' as -> _. by rewrite Hnew in Hev.
      * pose proof (resolve_spec _ _ _ _ _ Hres) as (_ & _ & _ & Ho & _).
        rewrite Hg in Hnew, Hout. simpl in Hnew, Hout.
        destruct (Hout _ eq_refl) as (res & evs' & -> & Hoc).
        rewrite Hnew in Hev. injection Hev as _ _ _ -> _.
        unfold finalized in Hoc. subst o'. fold props o in Hoc.
        apply ok_false_iff in Hst. rewrite Ht, Hst in Hoc. simpl in Hoc. eauto.
    + intros msg r Hoc. destruct (Hthrown _ _ Hoc) as (_ & _ & -> & Hev).
      split; [done|]. split; [|done]. by intros ->.
    + intros Ht msg r Hoc. destruct (Hthrown _ _ Hoc) as (Ht' & _). congruence.
  - intros fuel input gretchenInit w past h i ini response Hs Ht Hst.
    pose proof (gretchen_history _ _ _ _ _ _ _ _ _ _ Hs) as Hh.
    cbv zeta in Hh. destruct Hh as (_ & _ & Hm).
    destruct (retry_delay _ _ response) as [d|].
    + by destruct Hm as (rest & Hrest & _).
    + destruct Hm as [_ ->]. unfold finalized.
      cbn [options_of throwOnError]. apply ok_false_iff in Hst.
      by rewrite Ht, Hst.
Qed.

End ErrorProps.

Lemma http_error_iff_witness :
  let w := Demo.world {[ 0 := OPlain {[ "throwOnError" := VBool true ]} ]}
             [inr Demo.failure] in
  let w0 := Demo.world {[ 0 := OPlain {[ "returnJSON" := VBool false ]} ]}
              [inr Demo.failure] in
  (gretchen 1 Demo.url (VRef 0) w).2 =
  Some (Thrown (HTTPError "500 Internal Server Error" Demo.failure)) ∧
  (gretchen 1 Demo.url (VRef 0) w0).2 = Some (Returned (RResponse Demo.failure)) ∧
  ∀ msg r, Returned (RResponse Demo.failure) ≠ Thrown (HTTPError msg r).
Proof.
  intros w w0. split; [|split].
  - apply (proj2 (http_error_iff (H := Demo.platform)) 1 Demo.url (VRef 0) w []
             (heap (gretchen 1 Demo.url (VRef 0) w).1) Demo.url (VRef 2)
             Demo.failure).
    + vm_compute. reflexivity.
    + reflexivity.
    + right. reflexivity.
  - vm_compute. reflexivity.
  - apply (proj1 (http_error_iff (H := Demo.platform)) 1 Demo.url (VRef 0) w0
             (gretchen 1 Demo.url (VRef 0) w0).1
             (Returned (RResponse Demo.failure))).
    + vm_compute. reflexivity.
    + vm_compute. reflexivity.
Defined.

(** ** Calls without negotiation *)

Section PlainCalls.
Context {E : Type} `{Platform E}.
Local Open Scope list_scope.

(** When neither line 128 nor line 134 takes its branch, the resolution
    cannot fail and the request is a fresh object with the pass-through
    options and, unless the input is a [Request], the body as given. *)
Lemma resolve_plain (input gretchenInit : value) (w : World E) :
  let props := own_props (heap w) gretchenInit in
  let o := options_of props in
  wants_accept o = false → wants_send o = false →
  ∃ w1 init,
    resolve input gretchenInit w = (w1, inr (o, init)) ∧
    heap w !! init = None ∧ env w1 = env w ∧ log w1 = log w ∧
    (∀ l, is_Some (heap w !! l) → heap w1 !! l = heap w !! l) ∧
    heap w1 !! init =
      Some (OPlain (if instanceof_Request (heap w) input
                    then omit recognized props
                    else <["body" := body o]> (omit recognized props))).
Proof.
  intros props o Hacc Hsend.
  destruct (resolve input gretchenInit w) as [w1 r] eqn:Hres.
  pose proof (resolve_spec _ _ _ _ _ Hres) as (He & Hl & Hfr & Hr).
  fold props in Hr. fold o in Hr.
  destruct r as [e|[o' init]].
  { destruct Hr as (_ & _ & Hw). by rewrite Hacc, Hsend in Hw. }
  destruct Hr as (-> & Hnew & Hinit).
  exists w1, init. repeat split; [done..|].
  destruct (instanceof_Request (heap w) input); [done|].
  destruct Hinit as (P' & -> & Hk & Hm & Hb & Hh).
  rewrite Hacc, Hsend in *. simpl in *. do 2 f_equal. apply map_eq. intros k.
  destruct (decide (k = "body")) as [->|Hkb].
  { by rewrite lookup_insert_eq. }
  rewrite lookup_insert_ne by done.
  destruct (decide (k = "headers")) as [->|Hkh]; [done|].
  destruct (decide (k = "method")) as [->|Hkm]; [done|].
  by apply Hk.
Qed.

(** Such a call, with retrying and throwing off and the response wanted
    as it is, is one transport call whose result is handed back. *)
Lemma gretchen_plain_call (fuel : nat) (input gretchenInit : value)
    (w : World E) :
  let props := own_props (heap w) gretchenInit in
  let o := options_of props in
  wants_accept o = false → wants_send o = false →
  truthy (retryOnTooManyRequests o) = false →
  truthy (throwOnError o) = false →
  ∃ w1 init,
    resolve input gretchenInit w = (w1, inr (o, init)) ∧
    heap w !! init = None ∧ env w1 = env w ∧ log w1 = log w ∧
    (∀ l, is_Some (heap w !! l) → heap w1 !! l = heap w !! l) ∧
    heap w1 !! init =
      Some (OPlain (if instanceof_Request (heap w) input
                    then omit recognized props
                    else <["body" := body o]> (omit recognized props))) ∧
    gretchen (S fuel) input gretchenInit w =
      match call_fetch input (VRef init) w1 with
      | (w2, inr response) => (w2, Some (Returned (RResponse response)))
      | (w2, inl e) => (w2, Some (Thrown e))
      end.
Proof.
  intros props o Hacc Hsend Hretry Hthrow.
  destruct (resolve_plain input gretchenInit w Hacc Hsend)
    as (w1 & init & Hres & Hnew & He & Hl & Hfr & Hinit).
  exists w1, init. repeat split; [done..|].
  unfold gretchen. fold props o in Hres. rewrite Hres.
  rewrite transport_loop_step. unfold call_fetch, after_fetch.
  destruct (fetch (env w1) (heap w1) input (VRef init)) as [e' [err|response]];
    [done|].
  assert (truthy (returnJSON o) = false) as Hret.
  { unfold wants_accept in Hacc. by apply orb_false_iff in Hacc as [_ ?]. }
  unfold retry_delay, finalized. by rewrite Hretry, Hthrow, Hret.
Qed.

(** C4, as amended.  When [sendJSON], [requestJSON], [returnJSON],
    [retryOnTooManyRequests] and [throwOnError] are all falsy, a call of
    [gretchen] is one direct transport call: the request is a fresh object
    with the pass-through options (and, unless the input is a [Request],
    the body as given), no caller object is changed, and the result of
    that transport call, response or rejection, is the result of the
    call. *)
Theorem passthrough_identity (fuel : nat) (input gretchenInit : value)
    (w : World E) :
  let props := own_props (heap w) gretchenInit in
  let o := options_of props in
  truthy (sendJSON o) = false → truthy (requestJSON o) = false →
  truthy (returnJSON o) = false →
  truthy (retryOnTooManyRequests o) = false →
  truthy (throwOnError o) = false →
  ∃ w1 init,
    resolve input gretchenInit w = (w1, inr (o, init)) ∧
    heap w !! init = None ∧ env w1 = env w ∧ log w1 = log w ∧
    (∀ l, is_Some (heap w !! l) → heap w1 !! l = heap w !! l) ∧
    heap w1 !! init =
      Some (OPlain (if instanceof_Request (heap w) input
                    then omit recognized props
                    else <["body" := body o]> (omit recognized props))) ∧
    gretchen (S fuel) input gretchenInit w =
      match call_fetch input (VRef init) w1 with
      | (w2, inr response) => (w2, Some (Returned (RResponse response)))
      | (w2, inl e) => (w2, Some (Thrown e))
      end.
Proof.
  intros props o Hsend Hreq Hret Hretry Hthrow.
  apply gretchen_plain_call; try done.
  - unfold wants_accept. fold props o. by rewrite Hreq, Hret.
  - unfold wants_send. fold props o. by rewrite Hsend.
Qed.

(** C7.  The callable made by [createGretchen defaults], called with
    [overrides], is [gretchen] on a fresh object [m] whose properties are
    those of [overrides] and, for the keys [overrides] lacks, those of
    [defaults]: a key of [overrides] wins whatever its value, [undefined]
    and falsy values included.  In particular defaults
    [{sendJSON: true, returnJSON: true}] called with [{returnJSON: false}]
    give the response itself. *)
Theorem createGretchen_merges (defaults overrides : value) (fuel : nat)
    (input : value) (w : World E) :
  (∃ merged m,
     heap w !! merged = None ∧
     (∀ k, m !! k = match own_props (heap w) overrides !! k with
                    | Some v => Some v
                    | None => own_props (heap w) defaults !! k
                    end) ∧
     createGretchen defaults fuel input overrides w =
     gretchen fuel input (VRef merged)
       (mkWorld (<[merged := OPlain m]> (heap w)) (env w) (log w))) ∧
  (own_props (heap w) defaults =
     {[ "sendJSON" := VBool true; "returnJSON" := VBool true ]} →
   own_props (heap w) overrides = {[ "returnJSON" := VBool false ]} →
   ∀ response,
     (∀ h ini, (fetch (env w) h input ini).2 = inr response) →
     (createGretchen defaults (S fuel) input overrides w).2 =
     Some (Returned (RResponse response))).
Proof.
  assert (∀ n, createGretchen defaults n input overrides w =
     gretchen n input (VRef (fresh (dom (heap w))))
       (mkWorld (<[fresh (dom (heap w)) :=
                   OPlain (spread2 (heap w) defaults overrides)]> (heap w))
                (env w) (log w))) as Hcreate by done.
  assert (∀ k, spread2 (heap w) defaults overrides !! k =
               match own_props (heap w) overrides !! k with
               | Some v => Some v
               | None => own_props (heap w) defaults !! k
               end) as Hmerge.
  { intros k. unfold spread2. rewrite lookup_union.
    destruct (own_props (heap w) overrides !! k),
      (own_props (heap w) defaults !! k); done. }
  split.
  - exists (fresh (dom (heap w))), (spread2 (heap w) defaults overrides).
    split; [apply fresh_unused|]. split; [done|]. apply Hcreate.
  - intros Hd Ho response Hfetch. rewrite Hcreate.
    set (merged := fresh (dom (heap w))).
    set (m := spread2 (heap w) defaults overrides) in *.
    set (wm := mkWorld (<[merged := OPlain m]> (heap w)) (env w) (log w)).
    assert (own_props (heap wm) (VRef merged) = m) as Hm
      by (apply own_props_plain, lookup_insert_eq).
    assert (∀ k, field m k =
                 default VUndefined
                   ((({[ "returnJSON" := VBool false ]} : gmap string value) ∪
                     {[ "sendJSON" := VBool true; "returnJSON" := VBool true ]})
                    !! k)) as Hfield.
    { intros k. unfold field. subst m. unfold spread2. by rewrite Hd, Ho. }
    destruct (gretchen_plain_call fuel input (VRef merged) wm)
      as (w1 & init & _ & _ & He & _ & _ & _ & Hg).
    + rewrite Hm. unfold wants_accept, options_of; simpl. by rewrite !Hfield.
    + rewrite Hm. unfold wants_send, options_of; simpl. by rewrite !Hfield.
    + rewrite Hm. unfold options_of; simpl. by rewrite !Hfield.
    + rewrite Hm. unfold options_of; simpl. by rewrite !Hfield.
    + rewrite Hg. unfold call_fetch. rewrite He. simpl.
      specialize (Hfetch (heap w1) (VRef init)).
      destruct (fetch (env w) (heap w1) input (VRef init)) as [e' res].
      simpl in Hfetch. by subst res.
Qed.

End PlainCalls.

Lemma passthrough_identity_witness :
  let cfg : gmap string value := {[ "method" := VStr "GET"; "body" := VStr "x" ]} in
  let w := Demo.world {[ 0 := OPlain cfg ]} [inr Demo.failure] in
  ∃ w1 init,
    resolve Demo.url (VRef 0) w = (w1, inr (options_of cfg, init)) ∧
    heap w !! init = None ∧ env w1 = env w ∧ log w1 = log w ∧
    (∀ l, is_Some (heap w !! l) → heap w1 !! l = heap w !! l) ∧
    heap w1 !! init =
      Some (OPlain (<["body" := VStr "x"]> (omit recognized cfg))) ∧
    gretchen 1 Demo.url (VRef 0) w =
      match call_fetch Demo.url (VRef init) w1 with
      | (w2, inr response) => (w2, Some (Returned (RResponse response)))
      | (w2, inl e) => (w2, Some (Thrown e))
      end.
Proof.
  exact (passthrough_identity (H := Demo.platform) 0 Demo.url (VRef 0)
           (Demo.world {[ 0 := OPlain {[ "method" := VStr "GET"; "body" := VStr "x" ]} ]}
                       [inr Demo.failure])
           eq_refl eq_refl eq_refl eq_refl eq_refl).
Defined.

(** C4, as stated, fails.  In both runs [sendJSON], [requestJSON] and
    [returnJSON] are unset and object 1 holds the pass-through options of
    the configuration.  A direct transport call with it resolves to the
    response of status 500, while [gretchen] with [throwOnError] throws;
    and where a direct call resolves to the 429 response after one
    transport call, [gretchen] with [retryOnTooManyRequests] suspends,
    calls the transport a second time and resolves to the second
    response. *)
Lemma passthrough_identity_fails :
  let unset (cfg : gmap string value) :=
    cfg !! "sendJSON" = None ∧ cfg !! "requestJSON" = None ∧
    cfg !! "returnJSON" = None in
  let cfg1 : gmap string value :=
    {[ "throwOnError" := VBool true; "method" := VStr "GET" ]} in
  let w1 := Demo.world {[ 0 := OPlain cfg1; 1 := OPlain (omit recognized cfg1) ]}
              [inr Demo.failure] in
  let cfg2 : gmap string value :=
    {[ "retryOnTooManyRequests" := VBool true; "method" := VStr "GET" ]} in
  let w2 := Demo.world {[ 0 := OPlain cfg2; 1 := OPlain (omit recognized cfg2) ]}
              [inr Demo.retry_seconds; inr Demo.success] in
  (unset cfg1 ∧
   (call_fetch Demo.url (VRef 1) w1).2 = inr Demo.failure ∧
   (gretchen 1 Demo.url (VRef 0) w1).2 =
   Some (Thrown (HTTPError "500 Internal Server Error" Demo.failure))) ∧
  (unset cfg2 ∧
   (call_fetch Demo.url (VRef 1) w2).2 = inr Demo.retry_seconds ∧
   length (log (call_fetch Demo.url (VRef 1) w2).1) = 1 ∧
   (gretchen 2 Demo.url (VRef 0) w2).2 = Some (Returned (RResponse Demo.success)) ∧
   length (log (gretchen 2 Demo.url (VRef 0) w2).1) = 3).
Proof.
  vm_compute. repeat split.
Qed.

Lemma createGretchen_merges_witness :
  let h : gmap loc object :=
    {[ 0 := OPlain {[ "sendJSON" := VBool true; "returnJSON" := VBool true ]};
       1 := OPlain {[ "returnJSON" := VBool false ]} ]} in
  let w := Demo.world h [inr Demo.success] in
  (createGretchen (VRef 0) 1 Demo.url (VRef 1) w).2 =
  Some (Returned (RResponse Demo.success)).
Proof.
  apply (proj2 (createGretchen_merges (H := Demo.platform) (VRef 0) (VRef 1) 0
                  Demo.url
                  (Demo.world
                     {[ 0 := OPlain {[ "sendJSON" := VBool true;
                                       "returnJSON" := VBool true ]};
                        1 := OPlain {[ "returnJSON" := VBool false ]} ]}
                     [inr Demo.success]))).
  - vm_compute. reflexivity.
  - vm_compute. reflexivity.
  - intros h ini. reflexivity.
Defined.

(** ** Header defaults *)

Section HeaderProps.
Local Open Scope list_scope.

Lemma name_eqb_lower (a b c : string) :
  lower a = lower b → name_eqb c a = name_eqb c b.
Proof. intros Hab. unfold name_eqb. by rewrite Hab. Qed.

Lemma name_eqb_true (a b : string) : name_eqb a b = true ↔ lower a = lower b.
Proof. unfold name_eqb. apply String.eqb_eq. Qed.

Lemma values_of_lower (a b : string) (hl : header_list) :
  lower a = lower b → values_of a hl = values_of b hl.
Proof.
  intros Hab. induction hl as [|[n v] hl IH]; [done|]. simpl.
  by rewrite (name_eqb_lower a b n Hab), IH.
Qed.

(** Header names are matched whatever their case. *)
Lemma Headers_get_lower (hl : header_list) (a b : string) :
  lower a = lower b → Headers_get hl a = Headers_get hl b.
Proof. intros Hab. unfold Headers_get. by rewrite (values_of_lower a b). Qed.

Lemma values_of_app (name : string) (hl1 hl2 : header_list) :
  values_of name (hl1 ++ hl2) = values_of name hl1 ++ values_of name hl2.
Proof.
  induction hl1 as [|[n v] hl1 IH]; [done|]. simpl.
  destruct (name_eqb n name); by rewrite IH.
Qed.

Lemma Headers_get_None (hl : header_list) (name : string) :
  Headers_get hl name = None ↔ values_of name hl = [].
Proof. unfold Headers_get. by destruct (values_of name hl). Qed.

(** A present header is left alone. *)
Lemma with_default_present (hl : header_list) (name x v : string) :
  Headers_get hl name = Some v → with_default hl name x = hl.
Proof. intros Hget. unfold with_default. by rewrite Hget. Qed.

(** An absent header is appended. *)
Lemma with_default_absent (hl : header_list) (name x : string) :
  Headers_get hl name = None → with_default hl name x = hl ++ [(name, x)].
Proof.
  intros Hget. unfold with_default, Headers_set. rewrite Hget.
  apply Headers_get_None in Hget. by rewrite Hget.
Qed.

Lemma with_default_get (hl : header_list) (name x : string) :
  Headers_get (with_default hl name x) name =
  Some (default x (Headers_get hl name)).
Proof.
  destruct (Headers_get hl name) as [v|] eqn:Hget.
  - by rewrite (with_default_present _ _ _ _ Hget), Hget.
  - rewrite (with_default_absent _ _ _ Hget). unfold Headers_get.
    rewrite values_of_app. apply Headers_get_None in Hget. rewrite Hget.
    simpl. unfold name_eqb. by rewrite String.eqb_refl.
Qed.

Lemma with_default_other (hl : header_list) (name x name' : string) :
  name_eqb name name' = false →
  Headers_get (with_default hl name x) name' = Headers_get hl name'.
Proof.
  intros Hne. destruct (Headers_get hl name) as [v|] eqn:Hget.
  - by rewrite (with_default_present _ _ _ _ Hget).
  - rewrite (with_default_absent _ _ _ Hget). unfold Headers_get.
    rewrite values_of_app. simpl. rewrite Hne. by rewrite app_nil_r.
Qed.

(** Whatever the caller supplied is still there afterwards. *)
Lemma with_default_keeps (hl : header_list) (name x name' v : string) :
  Headers_get hl name' = Some v →
  Headers_get (with_default hl name x) name' = Some v.
Proof.
  intros Hget'. destruct (name_eqb name name') eqn:Hn.
  - apply name_eqb_true in Hn.
    rewrite <- (Headers_get_lower hl _ _ Hn) in Hget'.
    rewrite (with_default_present _ _ _ _ Hget').
    by rewrite <- (Headers_get_lower hl _ _ Hn).
  - by rewrite with_default_other.
Qed.

Lemma negotiated_headers_keeps (o : Options) (hl : header_list)
    (name v : string) :
  Headers_get hl name = Some v →
  Headers_get (negotiated_headers o hl) name = Some v.
Proof.
  intros Hget. unfold negotiated_headers.
  destruct (wants_accept o), (wants_send o);
    repeat apply with_default_keeps; done.
Qed.

Lemma negotiated_headers_accept (o : Options) (hl : header_list) :
  Headers_get (negotiated_headers o hl) "accept" =
  if wants_accept o
  then Some (default "application/json" (Headers_get hl "accept"))
  else Headers_get hl "accept".
Proof.
  unfold negotiated_headers.
  destruct (wants_accept o), (wants_send o);
    rewrite ?(with_default_other _ "content-type") by done;
    by rewrite ?with_default_get.
Qed.

Lemma negotiated_headers_content_type (o : Options) (hl : header_list) :
  Headers_get (negotiated_headers o hl) "content-type" =
  if wants_send o
  then Some (default "application/json" (Headers_get hl "content-type"))
  else Headers_get hl "content-type".
Proof.
  unfold negotiated_headers.
  destruct (wants_accept o), (wants_send o);
    rewrite ?with_default_get;
    by rewrite ?(with_default_other _ "accept") by done.
Qed.

Lemma not_recognized (k : string) :
  k ≠ "body" → k ≠ "requestJSON" → k ≠ "retryOnTooManyRequests" →
  k ≠ "returnJSON" → k ≠ "sendJSON" → k ≠ "throwOnError" →
  k ∉ recognized.
Proof.
  intros ?????? Hin. unfold recognized in Hin.
  repeat (apply elem_of_cons in Hin as [?|Hin]; [done|]).
  by apply elem_of_nil in Hin.
Qed.

Lemma is_defined_true (v : value) : is_defined v = true ↔ v ≠ VUndefined.
Proof. by destruct v. Qed.

End HeaderProps.

(** ** The request handed to the transport *)

Section RequestProps.
Context {E : Type} `{Platform E}.
Local Open Scope list_scope.

(** C5.  For an input that is not a [Request], in every transport call the
    request object [P'] is such that: with [sendJSON] truthy and a body
    other than [undefined], its body is what [JSON.stringify] returned for
    the body (run over a heap in which the caller's objects are as the
    caller left them), its method is [POST] if the caller's method is
    [undefined] or [null] and the caller's otherwise, and its headers have
    [content-type] equal to the caller's value or, without one, to
    [application/json]; with [sendJSON] falsy or the body [undefined], its
    body is the body as given. *)
Theorem send_json_request (fuel : nat) (input gretchenInit : value)
    (w : World E) h i ini res :
  instanceof_Request (heap w) input = false →
  EvFetch h i ini res ∈ new_events w (gretchen fuel input gretchenInit w).1 →
  let props := own_props (heap w) gretchenInit in
  let o := options_of props in
  ∃ init P',
    ini = VRef init ∧ h !! init = Some (OPlain P') ∧
    (truthy (sendJSON o) = true → body o ≠ VUndefined →
       (∃ hS s, JSON_stringify hS (body o) = inr s ∧ P' !! "body" = Some s ∧
                ∀ l, is_Some (heap w !! l) → hS !! l = heap w !! l) ∧
       P' !! "method" =
         (if is_nullish (field props "method")
          then Some (VStr "POST") else props !! "method") ∧
       ∃ hs hl hl',
         Headers_fill (heap w) (field props "headers") = Some hl ∧
         P' !! "headers" = Some (VRef hs) ∧ h !! hs = Some (OHeaders hl') ∧
         Headers_get hl' "content-type" =
           Some (default "application/json" (Headers_get hl "content-type"))) ∧
    (truthy (sendJSON o) = false ∨ body o = VUndefined →
       P' !! "body" = Some (body o)).
Proof.
  intros Hinst Hin props o.
  destruct (gretchen_sends _ _ _ _ _ _ _ _ Hin) as (w1 & o' & init & Hres & -> & -> & ->).
  pose proof (resolve_spec _ _ _ _ _ Hres) as (_ & _ & _ & Ho & Hnew & Hinit).
  fold props in Ho, Hinit. subst o'. fold o in Hinit. rewrite Hinst in Hinit.
  destruct Hinit as (P' & HP' & Hk & Hm & Hb & Hh).
  exists init, P'. split; [done|]. split; [done|]. split.
  - intros Hs Hbody. apply is_defined_true in Hbody.
    assert (wants_send o = true) as Hsend by (unfold wants_send; by rewrite Hs, Hbody).
    rewrite Hsend in *. rewrite orb_true_r in Hh. simpl in Hm.
    assert (field (omit recognized props) "headers" = field props "headers") as Hfh.
    { unfold field. by rewrite omit_recognized_lookup by (by apply not_recognized). }
    assert (field (omit recognized props) "method" = field props "method") as Hfm.
    { unfold field. by rewrite omit_recognized_lookup by (by apply not_recognized). }
    split; [|split].
    + destruct Hb as (hS & s & Hjson & Hbs & HhS). exists hS, s.
      repeat split; [done..|]. intros l Hl. apply HhS; [|done].
      intros ->. destruct Hl; congruence.
    + rewrite Hm, Hfm.
      by rewrite omit_recognized_lookup by (by apply not_recognized).
    + destruct Hh as (hs & hl & Hfill & Hfresh & Hph & Hhs).
      exists hs, hl, (negotiated_headers o hl). rewrite Hfh in Hfill.
      repeat split; [done..|].
      by rewrite negotiated_headers_content_type, Hsend.
  - intros Hoff.
    assert (wants_send o = false) as Hsend.
    { unfold wants_send. destruct Hoff as [->| ->]; [done|apply andb_false_r]. }
    by rewrite Hsend in Hb.
Qed.

(** C6.  In every transport call: if the input is a [Request], or neither
    line 128 nor line 134 takes its branch, the [headers] entry of the
    request object is the caller's own and nothing is set; otherwise it is a
    new header container [hl'] made from the caller's headers [hl], in which
    every header of the caller has kept its value, [accept] is the caller's
    value, or [application/json] if there was none and [requestJSON] or
    [returnJSON] is truthy, and [content-type] is the caller's value, or
    [application/json] if there was none and [sendJSON] is truthy with a
    body.  Names are matched whatever their case. *)
Theorem caller_headers_win (fuel : nat) (input gretchenInit : value)
    (w : World E) h i ini res :
  EvFetch h i ini res ∈ new_events w (gretchen fuel input gretchenInit w).1 →
  let props := own_props (heap w) gretchenInit in
  let o := options_of props in
  let accept := truthy (requestJSON o) || truthy (returnJSON o) in
  let send := truthy (sendJSON o) && is_defined (body o) in
  ∃ init P',
    ini = VRef init ∧ h !! init = Some (OPlain P') ∧
    if negb (instanceof_Request (heap w) input) && (accept || send) then
      ∃ hs hl hl',
        Headers_fill (heap w) (field props "headers") = Some hl ∧
        P' !! "headers" = Some (VRef hs) ∧ heap w !! hs = None ∧
        h !! hs = Some (OHeaders hl') ∧
        (∀ name v, Headers_get hl name = Some v →
                   Headers_get hl' name = Some v) ∧
        Headers_get hl' "accept" =
          (if accept
           then Some (default "application/json" (Headers_get hl "accept"))
           else Headers_get hl "accept") ∧
        Headers_get hl' "content-type" =
          (if send
           then Some (default "application/json" (Headers_get hl "content-type"))
           else Headers_get hl "content-type") ∧
        (∀ name, lower name = "accept" →
                 Headers_get hl name = Headers_get hl "accept") ∧
        (∀ name, lower name = "content-type" →
                 Headers_get hl name = Headers_get hl "content-type")
    else P' !! "headers" = props !! "headers".
Proof.
  intros Hin props o accept send.
  destruct (gretchen_sends _ _ _ _ _ _ _ _ Hin) as (w1 & o' & init & Hres & -> & -> & ->).
  pose proof (resolve_spec _ _ _ _ _ Hres) as (_ & _ & _ & Ho & Hnew & Hinit).
  fold props in Ho, Hinit. subst o'. fold o in Hinit.
  assert (omit recognized props !! "headers" = props !! "headers") as Hoh
    by (by rewrite omit_recognized_lookup by (by apply not_recognized)).
  destruct (instanceof_Request (heap w) input); simpl.
  { exists init, (omit recognized props). by split_and!. }
  destruct Hinit as (P' & HP' & Hk & Hm & Hb & Hh).
  exists init, P'. split; [done|]. split; [done|].
  fold (wants_accept o) in accept. fold (wants_send o) in send.
  subst accept send.
  assert (field (omit recognized props) "headers" = field props "headers") as Hfh
    by (unfold field; by rewrite Hoh).
  destruct (wants_accept o || wants_send o).
  - destruct Hh as (hs & hl & Hfill & Hfresh & Hph & Hhs).
    exists hs, hl, (negotiated_headers o hl). rewrite Hfh in Hfill.
    split_and!; [done..| | | | |].
    + intros name v. apply negotiated_headers_keeps.
    + apply negotiated_headers_accept.
    + apply negotiated_headers_content_type.
    + intros name Hname. by apply Headers_get_lower.
    + intros name Hname. by apply Headers_get_lower.
  - by rewrite Hh.
Qed.

(** C8.  For an input that is a [Request] the resolution cannot fail and
    negotiates nothing, whatever the flags: the request object is a fresh
    object with exactly the pass-through options, so its [headers] and
    [method] entries are the caller's and it has no [body] entry; no
    object of the caller is changed; and every transport call gets the
    [Request] itself and that object. *)
Theorem request_input_untouched (fuel : nat) (input gretchenInit : value)
    (w : World E) :
  instanceof_Request (heap w) input = true →
  let props := own_props (heap w) gretchenInit in
  ∃ w1 init P,
    resolve input gretchenInit w = (w1, inr (options_of props, init)) ∧
    heap w !! init = None ∧ env w1 = env w ∧ log w1 = log w ∧
    (∀ l, is_Some (heap w !! l) → heap w1 !! l = heap w !! l) ∧
    heap w1 !! init = Some (OPlain P) ∧ P = omit recognized props ∧
    P !! "headers" = props !! "headers" ∧
    P !! "method" = props !! "method" ∧
    P !! "body" = None ∧
    (∀ k, k ∉ recognized → P !! k = props !! k) ∧
    (∀ h i ini res,
       EvFetch h i ini res ∈ new_events w (gretchen fuel input gretchenInit w).1 →
       h = heap w1 ∧ i = input ∧ ini = VRef init).
Proof.
  intros Hinst props.
  destruct (resolve input gretchenInit w) as [w1 r] eqn:Hres.
  pose proof (resolve_spec _ _ _ _ _ Hres) as (He & Hl & Hfr & Hr).
  fold props in Hr. destruct r as [e|[o init]].
  { destruct Hr as (_ & Hno & _). congruence. }
  destruct Hr as (-> & Hnew & Hinit). rewrite Hinst in Hinit.
  exists w1, init, (omit recognized props). split_and!; [done..| | | | |].
  - by rewrite omit_recognized_lookup by (by apply not_recognized).
  - by rewrite omit_recognized_lookup by (by apply not_recognized).
  - apply omit_recognized_None. unfold recognized. apply elem_of_cons. by left.
  - intros k Hk. by apply omit_recognized_lookup.
  - intros h i ini res Hin.
    destruct (gretchen_sends _ _ _ _ _ _ _ _ Hin) as (w1' & o' & init' & Hres' & -> & -> & ->).
    rewrite Hres in Hres'. by injection Hres' as <- _ <-.
Qed.

(** C9, as amended.  In every transport call the request object has none
    of the keys [requestJSON], [retryOnTooManyRequests], [returnJSON],
    [sendJSON] and [throwOnError]; each of its keys is [body] or a key that
    is not a recognized option; and apart from [body], [headers] and
    [method] its entries are the pass-through entries of the configuration,
    value for value.  The three other entries are those the negotiation
    writes.  [method] is the caller's, or [POST] when, for an input that is
    not a [Request], [sendJSON] is truthy with a body and the caller gave
    no method.  [body] is absent for a [Request] input and otherwise
    present: the text [JSON.stringify] gave when [sendJSON] is truthy with
    a body, else the caller's value.  [headers] is the caller's entry, or a
    header container that did not exist before the call when a header
    default applies. *)
Theorem recognized_options_stripped (fuel : nat) (input gretchenInit : value)
    (w : World E) h i ini res :
  EvFetch h i ini res ∈ new_events w (gretchen fuel input gretchenInit w).1 →
  let props := own_props (heap w) gretchenInit in
  let plain := negb (instanceof_Request (heap w) input) in
  let send := truthy (field props "sendJSON") && is_defined (field props "body") in
  let accept :=
    truthy (field props "requestJSON") || truthy (field props "returnJSON") in
  ∃ init P',
    ini = VRef init ∧ h !! init = Some (OPlain P') ∧
    (∀ k, k ∈ ["requestJSON"; "retryOnTooManyRequests"; "returnJSON";
               "sendJSON"; "throwOnError"] → P' !! k = None) ∧
    (∀ k, is_Some (P' !! k) → k = "body" ∨ k ∉ recognized) ∧
    (∀ k, k ≠ "body" → k ≠ "headers" → k ≠ "method" →
          P' !! k = if decide (k ∈ recognized) then None else props !! k) ∧
    P' !! "method" =
      (if plain && send && is_nullish (field props "method")
       then Some (VStr "POST") else props !! "method") ∧
    (if plain
     then if send
          then ∃ hS s, JSON_stringify hS (field props "body") = inr s ∧
                 P' !! "body" = Some s
          else P' !! "body" = Some (field props "body")
     else P' !! "body" = None) ∧
    (if plain && (accept || send)
     then ∃ hs, P' !! "headers" = Some (VRef hs) ∧ heap w !! hs = None
     else P' !! "headers" = props !! "headers").
Proof.
  intros Hin props plain send accept.
  destruct (gretchen_sends _ _ _ _ _ _ _ _ Hin) as (w1 & o' & init & Hres & -> & -> & ->).
  pose proof (resolve_spec _ _ _ _ _ Hres) as (_ & _ & _ & Ho & Hnew & Hinit).
  fold props in Ho, Hinit.
  assert (omit recognized props !! "method" = props !! "method") as Hmeth
    by (by apply omit_recognized_lookup, not_recognized).
  assert (omit recognized props !! "headers" = props !! "headers") as Hhead
    by (by apply omit_recognized_lookup, not_recognized).
  assert (∃ P', heap w1 !! init = Some (OPlain P') ∧
            (∀ k, k ≠ "body" → k ≠ "headers" → k ≠ "method" →
                  P' !! k = omit recognized props !! k) ∧
            P' !! "method" =
              (if plain && send && is_nullish (field props "method")
               then Some (VStr "POST") else props !! "method") ∧
            (if plain
             then if send
                  then ∃ hS s, JSON_stringify hS (field props "body") = inr s ∧
                         P' !! "body" = Some s
                  else P' !! "body" = Some (field props "body")
             else P' !! "body" = None) ∧
            (if plain && (accept || send)
             then ∃ hs, P' !! "headers" = Some (VRef hs) ∧ heap w !! hs = None
             else P' !! "headers" = props !! "headers"))
    as (P' & HP' & Hk & Hm & Hb & Hh).
  { unfold plain. destruct (instanceof_Request (heap w) input).
    - exists (omit recognized props). simpl. split_and!; try done.
      apply omit_recognized_None. unfold recognized. apply elem_of_cons. by left.
    - destruct Hinit as (P' & HP' & Hk & Hm & Hb & Hh). subst o'.
      unfold wants_send, wants_accept in Hm, Hb, Hh.
      cbn [options_of sendJSON body requestJSON returnJSON] in Hm, Hb, Hh.
      fold send accept in Hm, Hb, Hh.
      assert (field (omit recognized props) "method" = field props "method")
        as Hfm by (unfold field; by rewrite Hmeth).
      rewrite Hfm, Hmeth in Hm. clearbody send accept.
      exists P'. simpl. split_and!; try done.
      + intros k ???. by apply Hk.
      + destruct send; [|done].
        destruct Hb as (hS & s & Hjson & Hbody & _). eauto.
      + destruct (accept || send); [|by rewrite Hh].
        destruct Hh as (hs & hl & _ & Hfresh & Hph & _). eauto. }
  exists init, P'. split; [done|]. split; [done|].
  assert (∀ k, k ≠ "body" → k ≠ "headers" → k ≠ "method" →
            P' !! k = if decide (k ∈ recognized) then None else props !! k) as Hk'.
  { intros k ???. rewrite Hk by done. apply omit_lookup. }
  split; [|split; [|by split_and!]].
  - intros k Hin'. rewrite !elem_of_cons, elem_of_nil in Hin'.
    assert (k ∈ recognized) as Hr.
    { unfold recognized. rewrite !elem_of_cons. tauto. }
    rewrite Hk'; [by rewrite decide_True|..];
      intros ->; destruct Hin' as [?|[?|[?|[?|[?|[]]]]]]; done.
  - intros k [v Hv].
    destruct (decide (k = "body")) as [|Hbk]; [by left|]. right.
    destruct (decide (k = "headers")) as [->|Hhk]; [by apply not_recognized|].
    destruct (decide (k = "method")) as [->|Hmk]; [by apply not_recognized|].
    rewrite Hk' in Hv by done. by case_decide.
Qed.

(** C10.  A call of [gretchen], however long it runs, leaves every object
    that existed before the call as it was; and in every transport call
    the request object is one that did not exist before the call, and its
    [headers] entry is either the caller's own value, passed along
    unread, or a header container that did not exist before the call. *)
Theorem caller_objects_unchanged (fuel : nat) (input gretchenInit : value)
    (w : World E) :
  (∀ l, is_Some (heap w !! l) →
        heap (gretchen fuel input gretchenInit w).1 !! l = heap w !! l) ∧
  (∀ h i ini res,
     EvFetch h i ini res ∈ new_events w (gretchen fuel input gretchenInit w).1 →
     (∀ l, is_Some (heap w !! l) → h !! l = heap w !! l) ∧
     ∃ init P',
       ini = VRef init ∧ heap w !! init = None ∧
       h !! init = Some (OPlain P') ∧
       (P' !! "headers" = own_props (heap w) gretchenInit !! "headers" ∨
        ∃ hs hl, P' !! "headers" = Some (VRef hs) ∧ heap w !! hs = None ∧
                 h !! hs = Some (OHeaders hl))).
Proof.
  split.
  - intros l Hl.
    destruct (gretchen_run fuel input gretchenInit w)
      as [(w1 & n & Hres & Hg & _)|(w1 & o & init & Hres & Hg & evs & _ & Hheap & _)].
    + rewrite Hg. simpl.
      pose proof (resolve_spec _ _ _ _ _ Hres) as (_ & _ & Hfr & _). auto.
    + rewrite Hheap.
      pose proof (resolve_spec _ _ _ _ _ Hres) as (_ & _ & Hfr & _). auto.
  - intros h i ini res Hin.
    destruct (gretchen_sends _ _ _ _ _ _ _ _ Hin) as (w1 & o' & init & Hres & -> & -> & ->).
    pose proof (resolve_spec _ _ _ _ _ Hres) as (_ & _ & Hfr & Ho & Hnew & Hinit).
    split; [done|].
    set (props := own_props (heap w) gretchenInit) in *.
    assert (omit recognized props !! "headers" = props !! "headers") as Hoh
      by (by rewrite omit_recognized_lookup by (by apply not_recognized)).
    destruct (instanceof_Request (heap w) input).
    + exists init, (omit recognized props). repeat split; [done..|]. by left.
    + destruct Hinit as (P' & HP' & _ & _ & _ & Hh).
      exists init, P'. repeat split; [done..|].
      destruct (wants_accept o' || wants_send o').
      * right. destruct Hh as (hs & hl & _ & Hfresh & Hph & Hhs). eauto.
      * left. by rewrite Hh.
Qed.

End RequestProps.

(** ** Concrete runs of the request properties *)

Lemma send_json_request_witness :
  let w := Demo.world
             {[ 0 := OPlain {[ "sendJSON" := VBool true; "body" := VRef 1 ]};
                1 := OPlain {[ "Wednesday" := VStr "pink" ]} ]}
             [inr Demo.success] in
  let h := heap (gretchen 1 Demo.url (VRef 0) w).1 in
  EvFetch h Demo.url (VRef 3) (inr Demo.success)
    ∈ new_events w (gretchen 1 Demo.url (VRef 0) w).1 ∧
  ∃ P', h !! 3 = Some (OPlain P') ∧ P' !! "method" = Some (VStr "POST") ∧
        ∃ s, P' !! "body" = Some s.
Proof.
  intros w h.
  assert (EvFetch h Demo.url (VRef 3) (inr Demo.success)
            ∈ new_events w (gretchen 1 Demo.url (VRef 0) w).1) as Hin
    by (vm_compute; apply list_elem_of_here).
  split; [exact Hin|].
  destruct (send_json_request 1 Demo.url (VRef 0) w h Demo.url (VRef 3)
              (inr Demo.success) eq_refl Hin)
    as (init & P' & Hini & HP' & Hsend & _).
  injection Hini as <-. exists P'. split; [exact HP'|].
  destruct Hsend as ((hS & s & _ & Hbody & _) & Hmethod & _);
    [vm_compute; reflexivity | vm_compute; discriminate |].
  split; [exact Hmethod | by exists s].
Defined.

Lemma caller_headers_win_witness :
  let w := Demo.world
             {[ 0 := OPlain {[ "sendJSON" := VBool true; "body" := VStr "x";
                               "headers" := VRef 1 ]};
                1 := ORecord [("Content-Type", "application/json; charset=utf-8")] ]}
             [inr Demo.success] in
  let h := heap (gretchen 1 Demo.url (VRef 0) w).1 in
  EvFetch h Demo.url (VRef 3) (inr Demo.success)
    ∈ new_events w (gretchen 1 Demo.url (VRef 0) w).1 ∧
  ∃ P' hs hl',
    h !! 3 = Some (OPlain P') ∧ P' !! "headers" = Some (VRef hs) ∧
    h !! hs = Some (OHeaders hl') ∧
    Headers_get hl' "content-type" = Some "application/json; charset=utf-8".
Proof.
  intros w h.
  assert (EvFetch h Demo.url (VRef 3) (inr Demo.success)
            ∈ new_events w (gretchen 1 Demo.url (VRef 0) w).1) as Hin
    by (vm_compute; apply list_elem_of_here).
  split; [exact Hin|].
  destruct (caller_headers_win 1 Demo.url (VRef 0) w h Demo.url (VRef 3)
              (inr Demo.success) Hin)
    as (init & P' & Hini & HP' & Hh).
  injection Hini as <-.
  change (negb (instanceof_Request (heap w) Demo.url) &&
          (truthy (requestJSON (options_of (own_props (heap w) (VRef 0)))) ||
           truthy (returnJSON (options_of (own_props (heap w) (VRef 0)))) ||
           truthy (sendJSON (options_of (own_props (heap w) (VRef 0)))) &&
           is_defined (body (options_of (own_props (heap w) (VRef 0))))))
    with true in Hh.
  destruct Hh as (hs & hl & hl' & Hfill & Hph & _ & Hhs & Hkeep & _).
  exists P', hs, hl'. split; [exact HP'|]. split; [exact Hph|].
  split; [exact Hhs|]. apply Hkeep.
  injection Hfill as <-. reflexivity.
Defined.

Lemma request_input_untouched_witness :
  let w := Demo.world
             {[ 0 := OPlain {[ "sendJSON" := VBool true; "body" := VStr "x";
                               "returnJSON" := VBool true;
                               "method" := VStr "PUT" ]};
                1 := ORequest {| req_url := "http://127.0.0.1/";
                                 req_method := "GET"; req_headers := [];
                                 req_body := None |} ]}
             [inr Demo.success] in
  ∃ w1 init P,
    resolve (VRef 1) (VRef 0) w =
      (w1, inr (options_of (own_props (heap w) (VRef 0)), init)) ∧
    heap w1 !! init = Some (OPlain P) ∧
    P !! "headers" = None ∧ P !! "method" = Some (VStr "PUT") ∧
    P !! "body" = None.
Proof.
  intros w.
  destruct (request_input_untouched 1 (VRef 1) (VRef 0) w eq_refl)
    as (w1 & init & P & Hres & _ & _ & _ & _ & HP & _ & Hh & Hm & Hb & _).
  exists w1, init, P. split; [exact Hres|]. split; [exact HP|].
  split; [exact Hh|]. split; [exact Hm | exact Hb].
Defined.

Lemma recognized_options_stripped_witness :
  let w := Demo.world
             {[ 0 := OPlain {[ "sendJSON" := VBool true; "body" := VStr "x";
                               "throwOnError" := VBool true;
                               "credentials" := VStr "include" ]} ]}
             [inr Demo.success] in
  let h := heap (gretchen 1 Demo.url (VRef 0) w).1 in
  EvFetch h Demo.url (VRef 2) (inr Demo.success)
    ∈ new_events w (gretchen 1 Demo.url (VRef 0) w).1 ∧
  ∃ P', h !! 2 = Some (OPlain P') ∧ P' !! "sendJSON" = None ∧
        P' !! "throwOnError" = None ∧
        P' !! "credentials" = Some (VStr "include") ∧
        P' !! "method" = Some (VStr "POST").
Proof.
  intros w h.
  assert (EvFetch h Demo.url (VRef 2) (inr Demo.success)
            ∈ new_events w (gretchen 1 Demo.url (VRef 0) w).1) as Hin
    by (vm_compute; apply list_elem_of_here).
  split; [exact Hin|].
  destruct (recognized_options_stripped 1 Demo.url (VRef 0) w h Demo.url (VRef 2)
              (inr Demo.success) Hin)
    as (init & P' & Hini & HP' & Hflags & _ & Hrest & Hmethod & _).
  injection Hini as <-. exists P'. split; [exact HP'|].
  split; [apply Hflags; repeat constructor|].
  split; [apply Hflags; repeat constructor|].
  split; [|exact Hmethod].
  rewrite Hrest by discriminate. reflexivity.
Defined.

(** C9, as stated, fails.  With [sendJSON] truthy, a body and no method in
    the configuration, the request handed to the transport holds
    [method: POST], which is neither a pass-through option of the
    configuration nor the body nor the headers; and it holds the key
    [body], one of the recognized option keys. *)
Lemma recognized_options_stripped_adds_method :
  let cfg : gmap string value :=
    {[ "sendJSON" := VBool true; "body" := VStr "x" ]} in
  let w := Demo.world {[ 0 := OPlain cfg ]} [inr Demo.success] in
  let h := heap (gretchen 1 Demo.url (VRef 0) w).1 in
  cfg !! "method" = None ∧
  new_events w (gretchen 1 Demo.url (VRef 0) w).1 =
    [EvFetch h Demo.url (VRef 2) (inr Demo.success)] ∧
  ∃ P', h !! 2 = Some (OPlain P') ∧
        P' !! "method" = Some (VStr "POST") ∧
        is_Some (P' !! "body") ∧ "body" ∈ recognized.
Proof.
  intros cfg w h. split; [reflexivity|]. split; [vm_compute; reflexivity|].
  eexists. split; [vm_compute; reflexivity|].
  split; [vm_compute; reflexivity|]. split; [vm_compute; eauto|].
  unfold recognized. apply elem_of_cons. by left.
Qed.

Lemma caller_objects_unchanged_witness :
  let cfg : gmap string value :=
    {[ "requestJSON" := VBool true; "headers" := VRef 1 ]} in
  let w := Demo.world
             {[ 0 := OPlain cfg; 1 := OHeaders [("x-token", "abc")] ]}
             [inr Demo.success] in
  let h := heap (gretchen 1 Demo.url (VRef 0) w).1 in
  h !! 0 = Some (OPlain cfg) ∧
  h !! 1 = Some (OHeaders [("x-token", "abc")]) ∧
  EvFetch h Demo.url (VRef 3) (inr Demo.success)
    ∈ new_events w (gretchen 1 Demo.url (VRef 0) w).1 ∧
  ∃ P', heap w !! 3 = None ∧ h !! 3 = Some (OPlain P').
Proof.
  intros cfg w h.
  assert (EvFetch h Demo.url (VRef 3) (inr Demo.success)
            ∈ new_events w (gretchen 1 Demo.url (VRef 0) w).1) as Hin
    by (vm_compute; apply list_elem_of_here).
  split; [|split; [|split; [exact Hin|]]].
  - apply (proj1 (caller_objects_unchanged 1 Demo.url (VRef 0) w) 0).
    vm_compute. eauto.
  - apply (proj1 (caller_objects_unchanged 1 Demo.url (VRef 0) w) 1).
    vm_compute. eauto.
  - destruct (proj2 (caller_objects_unchanged 1 Demo.url (VRef 0) w)
                h Demo.url (VRef 3) (inr Demo.success) Hin)
      as (_ & init & P' & Hini & Hnew & HP' & _).
    injection Hini as <-. exists P'. split; [exact Hnew | exact HP'].
Defined.

(** * Further properties of [gretchen] *)

(** ** The shape of a run *)

Section RunShape.
Context {E : Type} `{Platform E}.
Local Open Scope list_scope.

Lemma retry_delay_Some (o : Options) (t : Z) (r : Response) (d : Z) :
  retry_delay o t r = Some d →
  (0 ≤ d)%Z ∧ truthy (retryOnTooManyRequests o) = true ∧ status r = 429%Z ∧
  is_Some (Headers_get (resp_headers r) "retry-after").
Proof.
  unfold retry_delay.
  destruct (truthy (retryOnTooManyRequests o)); simpl; [|done].
  destruct (Z.eqb_spec (status r) 429) as [Hs|Hs]; [|done].
  destruct (Headers_get (resp_headers r) "retry-after") as [v|]; [|done].
  destruct (all_digits v).
  - intros [= <-]. split_and!; [|done..|by eexists].
    apply to_double_nonneg.
    pose proof (to_double_nonneg _ (Number_of_digits_nonneg v)).
    unfold Number. lia.
  - destruct (Date_parse v) as [epoch|]; [|done].
    intros [= <-]. split_and!; [apply Z.le_max_l|done..|by eexists].
Qed.

Lemma retry_events_app (h : gmap loc object) (input : value) (init : loc)
    (rs1 rs2 : list (Response * Z)) :
  retry_events h input init (rs1 ++ rs2) =
  retry_events h input init rs1 ++ retry_events h input init rs2.
Proof. unfold retry_events. apply flat_map_app. Qed.

(** A run of the loop is a sequence of retried attempts, each a transport
    call answered by a retriable response and the suspension it asks for,
    ended by a last transport call when there is an outcome, and of [fuel]
    attempts when there is none. *)
Lemma transport_loop_shape (fuel : nat) (o : Options) (input : value)
    (init : loc) (w : World E) :
  ∃ rs,
    Forall (λ rd, ∃ t, retry_delay o t (fst rd) = Some (snd rd)) rs ∧
    match (transport_loop fuel o input init w).2 with
    | Some oc =>
        (S (length rs) ≤ fuel)%nat ∧
        ∃ res,
          log (transport_loop fuel o input init w).1 =
            EvFetch (heap w) input (VRef init) res ::
            retry_events (heap w) input init rs ++ log w ∧
          match res with
          | inl err => oc = Thrown (ExternalError err)
          | inr response =>
              oc = finalized o response ∧
              ∃ t, retry_delay o t response = None
          end
    | None =>
        length rs = fuel ∧
        log (transport_loop fuel o input init w).1 =
          retry_events (heap w) input init rs ++ log w
    end.
Proof.
  revert w. induction fuel as [|fuel IH]; intros w.
  - exists []. simpl. by split_and!.
  - rewrite transport_loop_step.
    pose proof (after_fetch_heap w input init) as Hh.
    pose proof (after_fetch_log w input init) as Hl.
    destruct (fetch (env w) (heap w) input (VRef init)) as [e' [err|response]].
    + exists []. simpl in *. split; [done|]. split; [lia|].
      exists (inl err). by rewrite Hl.
    + destruct (retry_delay o (Date_now (env w)) response) as [delay|] eqn:Hd.
      * destruct (IH (after_sleep (after_fetch w input init) delay))
          as (rs & Hrs & Hshape).
        exists (rs ++ [(response, delay)]). split.
        { apply Forall_app. split; [done|]. apply Forall_singleton. eauto. }
        rewrite retry_events_app, length_app. simpl in *.
        rewrite Hh, Hl in Hshape. simpl in Hshape.
        destruct (transport_loop fuel o input init
                    (after_sleep (after_fetch w input init) delay)).2 as [oc|].
        -- destruct Hshape as (Hlen & res & Hlog & Hres). split; [lia|].
           exists res. split; [|done]. rewrite Hlog. simpl.
           by rewrite <- app_assoc.
        -- destruct Hshape as (Hlen & Hlog). split; [lia|].
           rewrite Hlog. by rewrite <- app_assoc.
      * exists []. simpl in *. split; [done|]. split; [lia|].
        exists (inr response). rewrite Hl. split; [done|]. eauto.
Qed.

Lemma fetches_app (evs1 evs2 : list Event) :
  fetches (evs1 ++ evs2) = fetches evs1 + fetches evs2.
Proof.
  induction evs1 as [|[] evs1 IH]; simpl; [done|by rewrite IH|done].
Qed.

Lemma sleeps_app (evs1 evs2 : list Event) :
  sleeps (evs1 ++ evs2) = sleeps evs1 + sleeps evs2.
Proof.
  induction evs1 as [|[] evs1 IH]; simpl; [done|done|by rewrite IH].
Qed.

Lemma retry_events_count (h : gmap loc object) (input : value) (init : loc)
    (rs : list (Response * Z)) :
  fetches (retry_events h input init rs) = length rs ∧
  sleeps (retry_events h input init rs) = length rs.
Proof.
  induction rs as [|rd rs [IHf IHs]]; [done|]. simpl. by rewrite IHf, IHs.
Qed.

Lemma retry_events_sleep (h : gmap loc object) (input : value) (init : loc)
    (rs : list (Response * Z)) (d : Z) :
  EvSleep d ∈ retry_events h input init rs → ∃ r, (r, d) ∈ rs.
Proof.
  induction rs as [|[r d'] rs IH]; simpl.
  - by intros ?%elem_of_nil.
  - rewrite !elem_of_cons. intros [[= ->]|[?|Hin]]; [|done|].
    + exists r. by left.
    + destruct (IH Hin) as [r' Hr']. exists r'. by right.
Qed.

(** The log entries a call adds: none when the resolution throws, else
    those of the loop on the resolved request. *)
Lemma gretchen_shape (fuel : nat) (input gretchenInit : value) (w : World E) :
  (∃ w1 n, resolve input gretchenInit w = (w1, inl (ExternalError n)) ∧
     gretchen fuel input gretchenInit w = (w1, Some (Thrown (ExternalError n))) ∧
     new_events w w1 = [] ∧ env w1 = env w) ∨
  (∃ w1 o init rs,
     resolve input gretchenInit w = (w1, inr (o, init)) ∧
     o = options_of (own_props (heap w) gretchenInit) ∧
     Forall (λ rd, ∃ t, retry_delay o t (fst rd) = Some (snd rd)) rs ∧
     match (gretchen fuel input gretchenInit w).2 with
     | Some oc =>
         (S (length rs) ≤ fuel)%nat ∧
         ∃ res,
           new_events w (gretchen fuel input gretchenInit w).1 =
             EvFetch (heap w1) input (VRef init) res ::
             retry_events (heap w1) input init rs ∧
           match res with
           | inl err => oc = Thrown (ExternalError err)
           | inr response =>
               oc = finalized o response ∧
               ∃ t, retry_delay o t response = None
           end
     | None =>
         length rs = fuel ∧
         new_events w (gretchen fuel input gretchenInit w).1 =
           retry_events (heap w1) input init rs
     end).
Proof.
  unfold gretchen.
  destruct (resolve input gretchenInit w) as [w1 r] eqn:Hres.
  pose proof (resolve_spec _ _ _ _ _ Hres) as (He & Hl & _ & Hr).
  destruct r as [e|[o init]].
  - left. destruct Hr as ([n ->] & _). exists w1, n. split_and!; try done.
    apply new_events_app. by rewrite Hl.
  - right. destruct Hr as (Ho & _).
    destruct (transport_loop_shape fuel o input init w1) as (rs & Hrs & Hshape).
    exists w1, o, init, rs. split_and!; try done.
    destruct (transport_loop fuel o input init w1).2 as [oc|].
    + destruct Hshape as (Hlen & res & Hlog & Hoc). split; [done|].
      exists res. split; [|done]. apply new_events_app.
      rewrite Hlog, Hl. by rewrite app_comm_cons.
    + destruct Hshape as (Hlen & Hlog). split; [done|].
      apply new_events_app. by rewrite Hlog, Hl.
Qed.

End RunShape.

Section RunProps.
Context {E : Type} `{Platform E}.
Local Open Scope list_scope.

(** X1.  A call never asks the timer for a negative delay: every
    suspension it logs has a delay of at least 0, with digits (a number of
    seconds times 1000) as with a date (the maximum with 0). *)
Theorem delays_never_negative (fuel : nat) (input gretchenInit : value)
    (w : World E) (d : Z) :
  EvSleep d ∈ new_events w (gretchen fuel input gretchenInit w).1 →
  (0 ≤ d)%Z.
Proof.
  intros Hin.
  destruct (gretchen_shape fuel input gretchenInit w)
    as [(w1 & n & _ & Hg & Hnew & _)|(w1 & o & init & rs & _ & _ & Hrs & Hshape)].
  - rewrite Hg in Hin. simpl in Hin. rewrite Hnew in Hin.
    by apply elem_of_nil in Hin.
  - assert (EvSleep d ∈ retry_events (heap w1) input init rs) as Hin'.
    { destruct (gretchen fuel input gretchenInit w).2.
      - destruct Hshape as (_ & res & Hlog & _). rewrite Hlog in Hin.
        by apply elem_of_cons in Hin as [?|?].
      - destruct Hshape as (_ & Hlog). by rewrite Hlog in Hin. }
    apply retry_events_sleep in Hin' as [r Hr].
    rewrite Forall_forall in Hrs. destruct (Hrs _ Hr) as [t Ht].
    by apply retry_delay_Some in Ht as (? & _).
Qed.

(** X2.  Without [retryOnTooManyRequests] a call never suspends and calls
    the transport at most once, and one iteration is enough for it to
    end. *)
Theorem no_retry_without_flag (fuel : nat) (input gretchenInit : value)
    (w : World E) :
  truthy (retryOnTooManyRequests (options_of (own_props (heap w) gretchenInit)))
    = false →
  sleeps (new_events w (gretchen fuel input gretchenInit w).1) = 0 ∧
  (fetches (new_events w (gretchen fuel input gretchenInit w).1) ≤ 1)%nat ∧
  ((0 < fuel)%nat → is_Some (gretchen fuel input gretchenInit w).2).
Proof.
  intros Hoff.
  destruct (gretchen_shape fuel input gretchenInit w)
    as [(w1 & n & _ & Hg & Hnew & _)|(w1 & o & init & rs & _ & Ho & Hrs & Hshape)].
  - rewrite Hg. simpl. rewrite Hnew. simpl. split_and!; [done|lia|eauto].
  - assert (rs = []) as ->.
    { destruct rs as [|rd rs]; [done|]. apply Forall_cons in Hrs as [[t Ht] _].
      apply retry_delay_Some in Ht as (_ & Hon & _). subst o. congruence. }
    destruct (gretchen fuel input gretchenInit w).2 as [oc|].
    + destruct Hshape as (_ & res & -> & _). simpl. split_and!; [done|lia|eauto].
    + destruct Hshape as (Hlen & ->). simpl in *. split_and!; [done|lia|lia].
Qed.

Lemma gretchen_counts (fuel : nat) (input gretchenInit : value)
    (w : World E) :
  let evs := new_events w (gretchen fuel input gretchenInit w).1 in
  (fetches evs ≤ fuel)%nat ∧
  match (gretchen fuel input gretchenInit w).2 with
  | Some _ =>
      (fetches evs = 0 ∧ sleeps evs = 0 ∧
       ∃ w1 n, resolve input gretchenInit w = (w1, inl (ExternalError n))) ∨
      fetches evs = S (sleeps evs)
  | None => fetches evs = fuel ∧ sleeps evs = fuel
  end.
Proof.
  intros evs. subst evs.
  destruct (gretchen_shape fuel input gretchenInit w)
    as [(w1 & n & Hres & Hg & Hnew & _)|(w1 & o & init & rs & _ & _ & _ & Hshape)].
  - rewrite Hg. simpl. rewrite Hnew. simpl. split; [lia|]. left. eauto.
  - pose proof (retry_events_count (heap w1) input init rs) as [Hf Hs].
    destruct (gretchen fuel input gretchenInit w).2 as [oc|].
    + destruct Hshape as (Hlen & res & -> & _). simpl. rewrite Hf, Hs.
      split; [lia|]. by right.
    + destruct Hshape as (Hlen & ->). rewrite Hf, Hs. split; [lia|]. done.
Qed.

(** X3.  Transport calls and suspensions go in step.  A call that has
    ended made one transport call more than it made suspensions, or none of
    either when the resolution threw; a call still running after [fuel]
    iterations made [fuel] of each.  There are never more transport calls
    than iterations. *)
Theorem calls_and_suspensions (fuel : nat) (input gretchenInit : value)
    (w : World E) :
  let evs := new_events w (gretchen fuel input gretchenInit w).1 in
  (fetches evs ≤ fuel)%nat ∧
  match (gretchen fuel input gretchenInit w).2 with
  | Some _ =>
      (fetches evs = 0 ∧ sleeps evs = 0 ∧
       ∃ w1 n, resolve input gretchenInit w = (w1, inl (ExternalError n))) ∨
      fetches evs = S (sleeps evs)
  | None => fetches evs = fuel ∧ sleeps evs = fuel
  end.
Proof. apply gretchen_counts. Qed.

(** X4.  The request is resolved once: all transport calls of a call get
    the same input, the same request object, and the same heap, so headers
    and body are those fixed before the loop at every attempt. *)
Theorem same_request_every_attempt (fuel : nat) (input gretchenInit : value)
    (w : World E) h1 i1 ini1 res1 h2 i2 ini2 res2 :
  EvFetch h1 i1 ini1 res1 ∈ new_events w (gretchen fuel input gretchenInit w).1 →
  EvFetch h2 i2 ini2 res2 ∈ new_events w (gretchen fuel input gretchenInit w).1 →
  h1 = h2 ∧ i1 = i2 ∧ ini1 = ini2.
Proof.
  intros Hin1 Hin2.
  destruct (gretchen_sends _ _ _ _ _ _ _ _ Hin1) as (w1 & o1 & init1 & Hres1 & -> & -> & ->).
  destruct (gretchen_sends _ _ _ _ _ _ _ _ Hin2) as (w2 & o2 & init2 & Hres2 & -> & -> & ->).
  rewrite Hres1 in Hres2. by injection Hres2 as <- _ <-.
Qed.

(** X5.  What a call returns has the shape [returnJSON] asks for, and comes
    from the terminal response: with [returnJSON] truthy it is the parsed
    body of that response, otherwise the response itself; and with
    [throwOnError] truthy that response has a status in 200-299. *)
Theorem returned_value_shape (fuel : nat) (input gretchenInit : value)
    (w w' : World E) (v : retval) :
  gretchen fuel input gretchenInit w = (w', Some (Returned v)) →
  let o := options_of (own_props (heap w) gretchenInit) in
  ∃ h i ini r rest,
    new_events w w' = EvFetch h i ini (inr r) :: rest ∧
    (truthy (throwOnError o) = true → (200 ≤ status r ≤ 299)%Z) ∧
    if truthy (returnJSON o)
    then ∃ j, Response_json r = inr j ∧ v = RJson j
    else v = RResponse r.
Proof.
  intros Hg o.
  destruct (gretchen_shape fuel input gretchenInit w)
    as [(w1 & n & _ & Hg' & _)|(w1 & o' & init & rs & _ & Ho & _ & Hshape)].
  { rewrite Hg in Hg'. done. }
  rewrite Hg in Hshape. simpl in Hshape.
  destruct Hshape as (_ & res & Hlog & Hres).
  destruct res as [err|r]; [done|]. destruct Hres as (Hoc & _).
  subst o'. fold o in Hoc.
  exists (heap w1), input, (VRef init), r, (retry_events (heap w1) input init rs).
  split; [done|]. unfold finalized in Hoc.
  destruct (truthy (throwOnError o) && negb (ok r)) eqn:Hthrow; [done|].
  split.
  - intros Ht. rewrite Ht in Hthrow. simpl in Hthrow.
    apply negb_false_iff in Hthrow. unfold ok in Hthrow.
    apply andb_true_iff in Hthrow as [?%Z.leb_le ?%Z.leb_le]. lia.
  - destruct (truthy (returnJSON o)).
    + destruct (Response_json r) as [e|j]; [done|]. exists j.
      split; [done|]. by injection Hoc as <-.
    + by injection Hoc as <-.
Qed.

(** X6.  The loop has no bound of its own: when the request resolves and the
    transport answers every call with a response that asks for a retry, the
    call is still running after any number of iterations, having made that
    many transport calls and that many suspensions. *)
Theorem retries_without_bound (input gretchenInit : value) (w : World E)
    (o : Options) (init : loc) :
  (resolve input gretchenInit w).2 = inr (o, init) →
  (∀ e h, ∃ r, (fetch e h input (VRef init)).2 = inr r ∧
               ∀ t, is_Some (retry_delay o t r)) →
  ∀ fuel,
    (gretchen fuel input gretchenInit w).2 = None ∧
    fetches (new_events w (gretchen fuel input gretchenInit w).1) = fuel ∧
    sleeps (new_events w (gretchen fuel input gretchenInit w).1) = fuel.
Proof.
  intros Hres Hbusy fuel.
  assert ((gretchen fuel input gretchenInit w).2 = None) as Hnone.
  { unfold gretchen. destruct (resolve input gretchenInit w) as [w1 r].
    simpl in Hres. subst r. generalize w1. clear w1.
    induction fuel as [|fuel IH]; intros w1; [done|].
    rewrite transport_loop_step.
    destruct (Hbusy (env w1) (heap w1)) as (r & Hr & Hretry).
    destruct (fetch (env w1) (heap w1) input (VRef init)) as [e' res].
    simpl in Hr. subst res.
    destruct (Hretry (Date_now (env w1))) as [d ->]. apply IH. }
  split; [done|].
  pose proof (gretchen_counts fuel input gretchenInit w) as [_ Hc].
  rewrite Hnone in Hc. done.
Qed.

End RunProps.

(** ** Concrete runs of the properties of whole calls *)

Lemma delays_never_negative_witness :
  let w := Demo.world
             {[ 0 := OPlain {[ "retryOnTooManyRequests" := VBool true ]} ]}
             [inr Demo.retry_past; inr Demo.success] in
  EvSleep 0 ∈ new_events w (gretchen 2 Demo.url (VRef 0) w).1 ∧ (0 ≤ 0)%Z.
Proof.
  intros w.
  assert (EvSleep 0 ∈ new_events w (gretchen 2 Demo.url (VRef 0) w).1) as Hin
    by (vm_compute; apply list_elem_of_further, list_elem_of_here).
  split; [exact Hin|].
  exact (delays_never_negative 2 Demo.url (VRef 0) w 0 Hin).
Defined.

Lemma no_retry_without_flag_witness :
  let w := Demo.world {[ 0 := OPlain {[ "method" := VStr "GET" ]} ]}
             [inr Demo.retry_seconds; inr Demo.success] in
  sleeps (new_events w (gretchen 3 Demo.url (VRef 0) w).1) = 0 ∧
  (fetches (new_events w (gretchen 3 Demo.url (VRef 0) w).1) ≤ 1)%nat ∧
  is_Some (gretchen 3 Demo.url (VRef 0) w).2.
Proof.
  intros w.
  destruct (no_retry_without_flag 3 Demo.url (VRef 0) w eq_refl)
    as (Hs & Hf & Hend).
  split; [exact Hs|]. split; [exact Hf|]. apply Hend. lia.
Defined.

Lemma same_request_every_attempt_witness :
  let w := Demo.world
             {[ 0 := OPlain {[ "retryOnTooManyRequests" := VBool true ]} ]}
             [inr Demo.retry_seconds; inr Demo.success] in
  let w' := (gretchen 2 Demo.url (VRef 0) w).1 in
  ∃ h1 h2 i1 i2 ini1 ini2,
    EvFetch h1 i1 ini1 (inr Demo.retry_seconds) ∈ new_events w w' ∧
    EvFetch h2 i2 ini2 (inr Demo.success) ∈ new_events w w' ∧
    h1 = h2 ∧ i1 = i2 ∧ ini1 = ini2.
Proof.
  intros w w'.
  assert (EvFetch (heap w') Demo.url (VRef 2) (inr Demo.retry_seconds)
            ∈ new_events w w') as H1
    by (vm_compute; apply list_elem_of_further, list_elem_of_further,
          list_elem_of_here).
  assert (EvFetch (heap w') Demo.url (VRef 2) (inr Demo.success)
            ∈ new_events w w') as H2
    by (vm_compute; apply list_elem_of_here).
  exists (heap w'), (heap w'), Demo.url, Demo.url, (VRef 2), (VRef 2).
  split; [exact H1|]. split; [exact H2|].
  exact (same_request_every_attempt 2 Demo.url (VRef 0) w _ _ _ _ _ _ _ _ H1 H2).
Defined.

Lemma returned_value_shape_witness :
  let w := Demo.world {[ 0 := OPlain {[ "returnJSON" := VBool true ]} ]}
             [inr Demo.success] in
  ∃ h i ini r rest,
    new_events w (gretchen 1 Demo.url (VRef 0) w).1 =
      EvFetch h i ini (inr r) :: rest ∧
    Response_json r = inr (JNum 12).
Proof.
  intros w.
  assert (gretchen 1 Demo.url (VRef 0) w =
          ((gretchen 1 Demo.url (VRef 0) w).1, Some (Returned (RJson (JNum 12)))))
    as Hrun by (vm_compute; reflexivity).
  pose proof (returned_value_shape 1 Demo.url (VRef 0) w _ _ Hrun) as Hshape.
  cbv zeta in Hshape.
  destruct Hshape as (h & i & ini & r & rest & Hnew & _ & Hv).
  change (truthy (returnJSON (options_of (own_props (heap w) (VRef 0)))))
    with true in Hv.
  destruct Hv as (j & Hj & Hjv). injection Hjv as <-.
  exists h, i, ini, r, rest. split; [exact Hnew | exact Hj].
Defined.

Lemma retries_without_bound_witness :
  let w := Busy.world
             {[ 0 := OPlain {[ "retryOnTooManyRequests" := VBool true ]} ]} in
  (gretchen 40 Demo.url (VRef 0) w).2 = None ∧
  fetches (new_events w (gretchen 40 Demo.url (VRef 0) w).1) = 40 ∧
  sleeps (new_events w (gretchen 40 Demo.url (VRef 0) w).1) = 40.
Proof.
  intros w.
  refine (retries_without_bound (H := Busy.platform) Demo.url (VRef 0) w
            (options_of {[ "retryOnTooManyRequests" := VBool true ]}) 2
            _ _ 40).
  - vm_compute. reflexivity.
  - intros e h. exists Demo.retry_seconds. split; [reflexivity|].
    intros t. exists 2000%Z. vm_compute. reflexivity.
Defined.

(** ** Errors of the resolution *)

Section ResolveErrors.
Context {E : Type} `{Platform E}.
Local Open Scope list_scope.

Ltac run := unfold mbind, M_bind, mret, M_ret, fmap, M_fmap, throw,
  get_heap, read_props, get_prop, now; simpl.

(** [default_header] fails exactly when the [headers] value is not a
    [HeadersInit]. *)
Lemma default_header_cases (init : loc) (name v : string) (w w' : World E)
    (P : gmap string value) r :
  heap w !! init = Some (OPlain P) →
  default_header init name v w = (w', r) →
  match r with
  | inl e => e = ExternalError "TypeError" ∧
             Headers_fill (heap w) (field P "headers") = None
  | inr _ => is_Some (Headers_fill (heap w) (field P "headers"))
  end.
Proof.
  intros Hinit Hrun. pose proof (default_header_run init name v w P Hinit) as Hd.
  destruct (Headers_fill (heap w) (field P "headers")) as [hl|].
  - simpl in Hd. rewrite Hd in Hrun. injection Hrun as <- <-. eauto.
  - rewrite Hd in Hrun. by injection Hrun as <- <-.
Qed.

(** Where an error of lines 127-146 comes from: the [Headers] constructor,
    or [JSON.stringify] once the headers have been built. *)
Lemma negotiate_error (o : Options) (input : value) (init : loc)
    (w w' : World E) (P : gmap string value) (e : exn) :
  heap w !! init = Some (OPlain P) →
  negotiate o input init w = (w', inl e) →
  (e = ExternalError "TypeError" ∧
   Headers_fill (heap w) (field P "headers") = None) ∨
  (∃ hS err, e = ExternalError err ∧ wants_send o = true ∧
     JSON_stringify hS (body o) = inl err ∧
     is_Some (Headers_fill (heap w) (field P "headers")) ∧
     ∀ l, l ≠ init → is_Some (heap w !! l) → hS !! l = heap w !! l).
Proof.
  intros Hinit. unfold negotiate. run.
  destruct (instanceof_Request (heap w) input); simpl; [done|].
  fold (wants_accept o). fold (wants_send o).
  destruct ((if wants_accept o
             then default_header init "accept" "application/json"
             else skip) w) as [w1 r1] eqn:Hacc.
  assert (match r1 with
          | inl e1 => e1 = ExternalError "TypeError" ∧
                      Headers_fill (heap w) (field P "headers") = None
          | inr _ =>
              frame_except init w w1 ∧
              ∃ P1, heap w1 !! init = Some (OPlain P1) ∧
                (wants_accept o = true →
                   is_Some (Headers_fill (heap w) (field P "headers"))) ∧
                (wants_accept o = true →
                   is_Some (Headers_fill (heap w1) (field P1 "headers"))) ∧
                (wants_accept o = false → w1 = w ∧ P1 = P)
          end) as Hr1.
  { destruct (wants_accept o).
    - pose proof (default_header_cases _ _ _ _ _ _ _ Hinit Hacc) as Hc.
      destruct (default_header_spec _ _ _ _ _ _ _ Hinit Hacc) as [Hf Hr].
      destruct r1 as [e1|[]]; [done|]. split; [done|].
      destruct Hr as (hs & hl & Hfill & Hfresh & Hne & Hi & Hh).
      exists (<["headers" := VRef hs]> P). split_and!; [done|done| |done].
      intros _. unfold field, Headers_fill. rewrite lookup_insert_eq. simpl.
      rewrite Hh. eauto.
    - revert Hacc. unfold skip. run. intros [= <- <-].
      split; [apply frame_except_refl|]. exists P. by split_and!. }
  destruct r1 as [e1|[]]; cbv beta iota.
  { intros [= _ <-]. by left. }
  destruct Hr1 as (Hf1 & P1 & Hinit1 & Hfill0 & Hfill1 & Hsame).
  destruct (wants_send o) eqn:Hsend.
  2: { rewrite (set_prop_run _ _ _ _ _ Hinit1). done. }
  rewrite (own_props_plain _ _ _ Hinit1).
  assert (∃ P2 w2, (if is_nullish (field P1 "method")
                    then set_prop init "method" (VStr "POST") else skip) w1
                   = (w2, inr tt) ∧
            heap w2 = <[init := OPlain P2]> (heap w1) ∧ env w2 = env w1 ∧
            log w2 = log w1 ∧ field P2 "headers" = field P1 "headers")
    as (P2 & w2 & Hset & Hheap2 & Henv2 & Hlog2 & HP2).
  { destruct (is_nullish (field P1 "method")).
    - eexists _, _. rewrite (set_prop_run _ _ _ _ _ Hinit1). split_and!; try done.
      unfold field. by rewrite lookup_insert_ne.
    - exists P1, w1. unfold skip. run. split_and!; try done. by rewrite insert_id. }
  rewrite Hset. cbv beta iota.
  assert (heap w2 !! init = Some (OPlain P2)) as Hinit2
    by (rewrite Hheap2; apply lookup_insert_eq).
  assert (frame_except init w1 w2) as Hf2.
  { split_and!; [done..|]. intros l Hl _. rewrite Hheap2.
    by rewrite lookup_insert_ne. }
  assert (Headers_fill (heap w2) (field P2 "headers") =
          Headers_fill (heap w1) (field P1 "headers")) as Hfill21.
  { rewrite Hheap2, HP2. by eapply Headers_fill_insert_plain. }
  assert (is_Some (Headers_fill (heap w1) (field P1 "headers")) →
          is_Some (Headers_fill (heap w) (field P "headers"))) as Hback.
  { destruct (wants_accept o); [auto|]. by destruct (Hsame eq_refl) as [-> ->]. }
  destruct (default_header init "content-type" "application/json" w2)
    as [w3 r3] eqn:Hct.
  pose proof (default_header_cases _ _ _ _ _ _ _ Hinit2 Hct) as Hc3.
  destruct (default_header_spec _ _ _ _ _ _ _ Hinit2 Hct) as [Hf3 _].
  rewrite Hfill21 in Hc3.
  destruct r3 as [e3|[]]; cbv beta iota.
  { destruct Hc3 as [-> Hnone]. intros [= _ <-]. left. split; [done|].
    destruct (wants_accept o).
    - destruct (Hfill1 eq_refl) as [? ?]. congruence.
    - by destruct (Hsame eq_refl) as [-> ->]. }
  unfold stringify. run.
  destruct (JSON_stringify (heap w3) (body o)) as [err|s] eqn:Hjson; simpl.
  - intros [= _ <-]. right. exists (heap w3), err. split_and!; [done..|auto|].
    assert (frame_except init w w3) as (_ & _ & Hfr).
    { eapply frame_except_trans; [done|]. by eapply frame_except_trans. }
    done.
  - destruct (heap w3 !! init) as [[]|] eqn:Hi3;
      unfold set_prop; simpl; rewrite Hi3; done.
Qed.

(** The worlds of [resolve] before the negotiation. *)
Lemma resolve_unfold (input gretchenInit : value) (w : World E) :
  let props := own_props (heap w) gretchenInit in
  ∃ w2 init,
    heap w2 !! init = Some (OPlain (omit recognized props)) ∧
    heap w !! init = None ∧ env w2 = env w ∧ log w2 = log w ∧
    (∀ l, is_Some (heap w !! l) → heap w2 !! l = heap w !! l) ∧
    (∀ v, Headers_fill (heap w2) v = Headers_fill (heap w) v) ∧
    (∀ v, instanceof_Request (heap w2) v = instanceof_Request (heap w) v) ∧
    resolve input gretchenInit w =
      match negotiate (options_of props) input init w2 with
      | (w3, inr _) => (w3, inr (options_of props, init))
      | (w3, inl e) => (w3, inl e)
      end.
Proof.
  intros props. unfold resolve. run.
  destruct (is_defined gretchenInit) eqn:Hdef; simpl.
  - pose proof (fresh_unused (heap w)) as Hc.
    set (copy := fresh (dom (heap w))) in *.
    pose proof (fresh_unused (<[copy := OPlain props]> (heap w))) as Hi.
    set (init := fresh (dom (<[copy := OPlain props]> (heap w)))) in *.
    assert (init ≠ copy) as Hne
      by (intros Heq; rewrite Heq, lookup_insert_eq in Hi; done).
    rewrite lookup_insert_ne in Hi by done.
    rewrite (own_props_plain _ copy props) by apply lookup_insert_eq.
    exists (mkWorld (<[init := OPlain (omit recognized props)]>
                      (<[copy := OPlain props]> (heap w))) (env w) (log w)), init.
    simpl. split_and!; [apply lookup_insert_eq|done..| | | |].
    + intros l [x Hx]. rewrite !lookup_insert_ne by congruence. done.
    + intros v. rewrite Headers_fill_alloc_plain by (by rewrite lookup_insert_ne).
      by apply Headers_fill_alloc_plain.
    + intros v. rewrite instanceof_Request_alloc_plain
        by (by rewrite lookup_insert_ne).
      by apply instanceof_Request_alloc_plain.
    + fold props. fold copy. fold init. reflexivity.
  - assert (props = ∅) as Hprops by (subst props; by destruct gretchenInit).
    pose proof (fresh_unused (heap w)) as H0.
    set (l0 := fresh (dom (heap w))) in *.
    set (h1 := <[l0 := OPlain ∅]> (heap w)).
    pose proof (fresh_unused h1) as Hc.
    set (copy := fresh (dom h1)) in *.
    assert (own_props h1 (VRef l0) = props) as Hp1.
    { rewrite Hprops. apply own_props_plain. apply lookup_insert_eq. }
    rewrite Hp1.
    pose proof (fresh_unused (<[copy := OPlain props]> h1)) as Hi.
    set (init := fresh (dom (<[copy := OPlain props]> h1))) in *.
    assert (init ≠ copy) as Hne
      by (intros Heq; rewrite Heq, lookup_insert_eq in Hi; done).
    rewrite lookup_insert_ne in Hi by done.
    assert (init ≠ l0) as Hne0
      by (intros Heq; subst h1; rewrite Heq, lookup_insert_eq in Hi; done).
    assert (copy ≠ l0) as Hnec
      by (intros Heq; subst h1; rewrite Heq, lookup_insert_eq in Hc; done).
    rewrite (own_props_plain _ copy props) by apply lookup_insert_eq.
    exists (mkWorld (<[init := OPlain (omit recognized props)]>
                      (<[copy := OPlain props]> h1)) (env w) (log w)), init.
    simpl.
    assert (heap w !! init = None) as Hi0
      by (subst h1; by rewrite lookup_insert_ne in Hi).
    assert (heap w !! copy = None) as Hc0
      by (subst h1; by rewrite lookup_insert_ne in Hc).
    split_and!; [apply lookup_insert_eq|done..| | | |].
    + intros l [x Hx]. subst h1. rewrite !lookup_insert_ne by congruence. done.
    + intros v. rewrite Headers_fill_alloc_plain by (by rewrite lookup_insert_ne).
      rewrite Headers_fill_alloc_plain by done.
      by apply Headers_fill_alloc_plain.
    + intros v. rewrite instanceof_Request_alloc_plain
        by (by rewrite lookup_insert_ne).
      rewrite instanceof_Request_alloc_plain by done.
      by apply instanceof_Request_alloc_plain.
    + reflexivity.
Qed.

(** Where an error of [resolve] comes from. *)
Lemma resolve_error (input gretchenInit : value) (w w' : World E) (e : exn) :
  resolve input gretchenInit w = (w', inl e) →
  let props := own_props (heap w) gretchenInit in
  let o := options_of props in
  (e = ExternalError "TypeError" ∧
   Headers_fill (heap w) (field props "headers") = None) ∨
  (∃ hS err, e = ExternalError err ∧ wants_send o = true ∧
     JSON_stringify hS (body o) = inl err ∧
     is_Some (Headers_fill (heap w) (field props "headers")) ∧
     ∀ l, is_Some (heap w !! l) → hS !! l = heap w !! l).
Proof.
  intros Hres props o.
  destruct (resolve_unfold input gretchenInit w)
    as (w2 & init & Hinit2 & Hnew & _ & _ & Hext & Hfill & _ & Heq).
  fold props in Hinit2, Heq. fold o in Heq. rewrite Heq in Hres.
  destruct (negotiate o input init w2) as [w3 [e3|[]]] eqn:Hneg; [|done].
  injection Hres as _ ->.
  assert (field (omit recognized props) "headers" = field props "headers") as Hfh.
  { unfold field. by rewrite omit_recognized_lookup by (by apply not_recognized). }
  destruct (negotiate_error _ _ _ _ _ _ _ Hinit2 Hneg)
    as [[-> Hnone]|(hS & err & -> & Hsend & Hjson & Hsome & HhS)].
  - left. split; [done|]. by rewrite Hfill, Hfh in Hnone.
  - right. exists hS, err. rewrite Hfill, Hfh in Hsome. split_and!; [done..|].
    intros l Hl. rewrite HhS.
    + by apply Hext.
    + intros ->. destruct Hl; congruence.
    + by rewrite Hext.
Qed.

End ResolveErrors.

Section ErrorProps2.
Context {E : Type} `{Platform E}.
Local Open Scope list_scope.

(** X7.  An error other than [HTTPError] is never made up by the call: it
    is the error of the platform, unchanged.  Either the resolution threw
    before any transport call (the [TypeError] of [new Headers] on a
    [headers] value that is not a [HeadersInit], or the error of
    [JSON.stringify]), or the newest transport call rejected with it, or
    [returnJSON] is truthy and parsing the body of the terminal response
    failed with it. *)
Theorem external_error_provenance (fuel : nat) (input gretchenInit : value)
    (w w' : World E) (n : string) :
  gretchen fuel input gretchenInit w = (w', Some (Thrown (ExternalError n))) →
  let props := own_props (heap w) gretchenInit in
  let o := options_of props in
  (new_events w w' = [] ∧ env w' = env w ∧
   ((n = "TypeError" ∧ Headers_fill (heap w) (field props "headers") = None) ∨
    (∃ hS, JSON_stringify hS (body o) = inl n ∧
           ∀ l, is_Some (heap w !! l) → hS !! l = heap w !! l))) ∨
  (∃ h i ini rest, new_events w w' = EvFetch h i ini (inl n) :: rest) ∨
  (∃ h i ini r rest,
     new_events w w' = EvFetch h i ini (inr r) :: rest ∧
     truthy (returnJSON o) = true ∧ Response_json r = inl n ∧
     truthy (throwOnError o) && negb (ok r) = false).
Proof.
  intros Hg props o.
  destruct (gretchen_shape fuel input gretchenInit w)
    as [(w1 & n' & Hres & Hg' & Hnew & He)
       |(w1 & o' & init & rs & _ & Ho & _ & Hshape)].
  - rewrite Hg in Hg'. injection Hg' as -> <-. left. split_and!; [done..|].
    destruct (resolve_error _ _ _ _ _ Hres)
      as [[[= ->] Hnone]|(hS & err & [= ->] & _ & Hjson & _ & HhS)].
    + by left.
    + right. by exists hS.
  - right. rewrite Hg in Hshape. simpl in Hshape.
    destruct Hshape as (_ & res & Hlog & Hres). subst o'. fold props o in Hres.
    destruct res as [err|r].
    + injection Hres as ->. left. eauto 10.
    + destruct Hres as (Hoc & _). right. unfold finalized in Hoc.
      destruct (truthy (throwOnError o) && negb (ok r)) eqn:Hthrow; [done|].
      destruct (truthy (returnJSON o)) eqn:Hret; [|done].
      destruct (Response_json r) as [e|j] eqn:Hj; [|done].
      injection Hoc as ->. eauto 12.
Qed.

(** X8.  The [headers] value is looked at only when a header default
    applies.  For an input that is not a [Request], when [requestJSON] or
    [returnJSON] is truthy, or [sendJSON] is truthy with a body, a [headers]
    value that is [null], a boolean, a number or a string (neither
    [undefined] nor an object) makes the call throw the [TypeError] of
    [new Headers] before any transport call; when no default applies, the
    resolution cannot fail, whatever the [headers] value. *)
Theorem invalid_headers_throw (fuel : nat) (input gretchenInit : value)
    (w : World E) :
  let props := own_props (heap w) gretchenInit in
  let applies :=
    truthy (field props "requestJSON") || truthy (field props "returnJSON") ||
    truthy (field props "sendJSON") && is_defined (field props "body") in
  (instanceof_Request (heap w) input = false → applies = true →
   field props "headers" ≠ VUndefined →
   (∀ l, field props "headers" ≠ VRef l) →
   (gretchen fuel input gretchenInit w).2 =
     Some (Thrown (ExternalError "TypeError")) ∧
   new_events w (gretchen fuel input gretchenInit w).1 = [] ∧
   env (gretchen fuel input gretchenInit w).1 = env w) ∧
  (applies = false →
   ∃ w1 init,
     resolve input gretchenInit w = (w1, inr (options_of props, init))).
Proof.
  intros props applies. set (o := options_of props).
  change applies with (wants_accept o || wants_send o) in *. clear applies.
  split.
  - intros Hinst Happ Hundef Hobj.
    assert (Headers_fill (heap w) (field props "headers") = None) as Hnone.
    { destruct (field props "headers") as [| | | | |l]; try done.
      by destruct (Hobj l). }
    destruct (gretchen_shape fuel input gretchenInit w)
      as [(w1 & n & Hres & Hg & Hnew & He)
         |(w1 & o' & init & rs & Hres & _)].
    + rewrite Hg. simpl. split_and!; [|done..].
      destruct (resolve_error _ _ _ _ _ Hres)
        as [[[= ->] _]|(hS & err & _ & _ & _ & [hl Hsome] & _)]; [done|].
      fold props in Hsome. congruence.
    + pose proof (resolve_spec _ _ _ _ _ Hres) as (_ & _ & _ & -> & _ & Hinit).
      fold props o in Hinit. rewrite Hinst in Hinit.
      destruct Hinit as (P' & _ & _ & _ & _ & Hh).
      rewrite Happ in Hh. destruct Hh as (hs & hl & Hfill & _).
      assert (field (omit recognized props) "headers" = field props "headers") as Hfh.
      { unfold field. by rewrite omit_recognized_lookup by (by apply not_recognized). }
      rewrite Hfh in Hfill. congruence.
  - intros Happ. apply orb_false_iff in Happ as [Hacc Hsend].
    destruct (resolve_plain input gretchenInit w Hacc Hsend)
      as (w1 & init & Hres & _). eauto.
Qed.

(** X9.  An error of [JSON.stringify] is not caught: for an input that is
    not a [Request], with [sendJSON] truthy, a body other than [undefined]
    and valid headers, a codec that throws on the body, in every heap that
    holds the caller's objects as they are, makes the call throw that error
    before any transport call. *)
Theorem stringify_error_propagates (fuel : nat) (input gretchenInit : value)
    (w : World E) (err : string) :
  let props := own_props (heap w) gretchenInit in
  let o := options_of props in
  instanceof_Request (heap w) input = false →
  truthy (sendJSON o) = true → body o ≠ VUndefined →
  is_Some (Headers_fill (heap w) (field props "headers")) →
  (∀ h, (∀ l, is_Some (heap w !! l) → h !! l = heap w !! l) →
        JSON_stringify h (body o) = inl err) →
  (gretchen fuel input gretchenInit w).2 = Some (Thrown (ExternalError err)) ∧
  new_events w (gretchen fuel input gretchenInit w).1 = [] ∧
  env (gretchen fuel input gretchenInit w).1 = env w.
Proof.
  intros props o Hinst Hs Hbody Hsome Hthrows.
  assert (wants_send o = true) as Hsend.
  { unfold wants_send. rewrite Hs. by apply is_defined_true in Hbody as ->. }
  destruct (gretchen_shape fuel input gretchenInit w)
    as [(w1 & n & Hres & Hg & Hnew & He)
       |(w1 & o' & init & rs & Hres & _)].
  - rewrite Hg. simpl. split_and!; [|done..].
    destruct (resolve_error _ _ _ _ _ Hres)
      as [[_ Hnone]|(hS & err' & [= ->] & _ & Hjson & _ & HhS)].
    + fold props in Hnone. destruct Hsome. congruence.
    + fold props o in Hjson. rewrite (Hthrows hS HhS) in Hjson.
      by injection Hjson as ->.
  - pose proof (resolve_spec _ _ _ _ _ Hres) as (_ & _ & _ & -> & Hnew & Hinit).
    fold props o in Hinit. rewrite Hinst in Hinit.
    destruct Hinit as (P' & _ & _ & _ & Hb & _). rewrite Hsend in Hb.
    destruct Hb as (hS & s & Hjson & _ & HhS). rewrite Hthrows in Hjson; [done|].
    intros l Hl. apply HhS; [|done]. intros ->. destruct Hl. congruence.
Qed.

End ErrorProps2.

(** ** Headers are only appended *)


Section MoreRequestProps.
Context {E : Type} `{Platform E}.
Local Open Scope list_scope.


Lemma gretchen_heap_frame (fuel : nat) (input gretchenInit : value)
    (w : World E) (l : loc) :
  is_Some (heap w !! l) →
  heap (gretchen fuel input gretchenInit w).1 !! l = heap w !! l.
Proof.
  intros Hl.
  destruct (gretchen_run fuel input gretchenInit w)
    as [(w1 & n & Hres & Hg & _)|(w1 & o & init & Hres & Hg & evs & _ & Hheap & _)].
  - rewrite Hg. simpl.
    pose proof (resolve_spec _ _ _ _ _ Hres) as (_ & _ & Hfr & _). auto.
  - rewrite Hheap.
    pose proof (resolve_spec _ _ _ _ _ Hres) as (_ & _ & Hfr & _). auto.
Qed.

(** X11.  A callable made by [createGretchen] changes neither the defaults
    object nor the overrides object nor any other object that existed
    before the call: the merge is written to a new object. *)
Theorem createGretchen_leaves_objects (defaults overrides : value)
    (fuel : nat) (input : value) (w : World E) (l : loc) :
  is_Some (heap w !! l) →
  heap (createGretchen defaults fuel input overrides w).1 !! l = heap w !! l.
Proof.
  intros Hl. unfold createGretchen, get_heap, alloc, mbind, M_bind. simpl.
  pose proof (fresh_unused (heap w)) as Hfresh.
  rewrite gretchen_heap_frame; simpl.
  - apply lookup_insert_ne. intros <-. destruct Hl; congruence.
  - rewrite lookup_insert_ne; [done|]. intros <-. destruct Hl; congruence.
Qed.

(** X12.  A call without a configuration is a plain transport call: the
    default parameter gives a request object that is empty for a [Request]
    input and holds just [body: undefined] otherwise, the transport is
    called once, and its response or rejection is the result. *)
Theorem default_configuration (fuel : nat) (input : value) (w : World E) :
  ∃ w1 init,
    heap w !! init = None ∧ env w1 = env w ∧ log w1 = log w ∧
    (∀ l, is_Some (heap w !! l) → heap w1 !! l = heap w !! l) ∧
    heap w1 !! init =
      Some (OPlain (if instanceof_Request (heap w) input
                    then ∅ else {[ "body" := VUndefined ]})) ∧
    gretchen (S fuel) input VUndefined w =
      match call_fetch input (VRef init) w1 with
      | (w2, inr response) => (w2, Some (Returned (RResponse response)))
      | (w2, inl e) => (w2, Some (Thrown e))
      end.
Proof.
  destruct (gretchen_plain_call fuel input VUndefined w)
    as (w1 & init & _ & Hnew & He & Hl & Hfr & Hinit & Hg); try done.
  exists w1, init. by split_and!.
Qed.

(** X13.  One retry: when the first response asks for a retry after [d]
    milliseconds and the response of the second transport call, made after
    that suspension, does not, two iterations end the call; its outcome is
    the finalization of the second response, and the log shows the first
    call, the suspension of [d] and the second call, in this order. *)
Theorem one_retry_then_result (fuel : nat) (input gretchenInit : value)
    (w : World E) (o : Options) (init : loc) (r1 r2 : Response) (d : Z) :
  (resolve input gretchenInit w).2 = inr (o, init) →
  let w1 := (resolve input gretchenInit w).1 in
  (fetch (env w1) (heap w1) input (VRef init)).2 = inr r1 →
  retry_delay o (Date_now (env w1)) r1 = Some d →
  let w2 := after_sleep (after_fetch w1 input init) d in
  (fetch (env w2) (heap w2) input (VRef init)).2 = inr r2 →
  retry_delay o (Date_now (env w2)) r2 = None →
  gretchen (S (S fuel)) input gretchenInit w =
    (after_fetch w2 input init, Some (finalized o r2)) ∧
  new_events w (after_fetch w2 input init) =
    [EvFetch (heap w1) input (VRef init) (inr r2);
     EvSleep d;
     EvFetch (heap w1) input (VRef init) (inr r1)].
Proof.
  intros Hres w1 Hf1 Hd1 w2 Hf2 Hd2.
  assert (resolve input gretchenInit w = (w1, inr (o, init))) as Hres'.
  { subst w1. destruct (resolve input gretchenInit w) as [w1 r].
    simpl in *. by subst r. }
  pose proof (resolve_spec _ _ _ _ _ Hres') as (_ & Hl & _).
  split.
  - unfold gretchen. rewrite Hres'. rewrite transport_loop_step.
    destruct (fetch (env w1) (heap w1) input (VRef init)) as [e1 res1] eqn:Hfe1.
    simpl in Hf1. subst res1. rewrite Hd1. fold w2.
    rewrite transport_loop_step.
    destruct (fetch (env w2) (heap w2) input (VRef init)) as [e2 res2] eqn:Hfe2.
    simpl in Hf2. subst res2. by rewrite Hd2.
  - assert (heap w2 = heap w1) as Hh2 by apply after_fetch_heap.
    assert (log w2 =
            EvSleep d :: EvFetch (heap w1) input (VRef init) (inr r1) :: log w)
      as Hl2.
    { subst w2. simpl. by rewrite after_fetch_log, Hf1, Hl. }
    apply new_events_app. by rewrite after_fetch_log, Hf2, Hh2, Hl2.
Qed.

End MoreRequestProps.

(** ** Concrete runs of the error and request properties *)

Lemma external_error_provenance_witness :
  let w := Demo.world {[ 0 := OPlain {[ "method" := VStr "GET" ]} ]} [] in
  ∃ h i ini rest,
    new_events w (gretchen 1 Demo.url (VRef 0) w).1 =
      EvFetch h i ini (inl "NetworkError") :: rest.
Proof.
  intros w.
  assert (gretchen 1 Demo.url (VRef 0) w =
          ((gretchen 1 Demo.url (VRef 0) w).1,
           Some (Thrown (ExternalError "NetworkError"))))
    as Hrun by (vm_compute; reflexivity).
  pose proof (external_error_provenance 1 Demo.url (VRef 0) w _ _ Hrun) as Hp.
  cbv zeta in Hp.
  destruct Hp as [(Hnew & _)|[Hp|(h & i & ini & r & rest & Hnew & _)]].
  - vm_compute in Hnew. discriminate Hnew.
  - exact Hp.
  - vm_compute in Hnew. discriminate Hnew.
Defined.

Lemma invalid_headers_throw_witness :
  let w := Demo.world
             {[ 0 := OPlain {[ "requestJSON" := VBool true;
                               "headers" := VStr "x-token: abc" ]};
                1 := OPlain {[ "headers" := VStr "x-token: abc" ]} ]}
             [inr Demo.success] in
  ((gretchen 1 Demo.url (VRef 0) w).2 = Some (Thrown (ExternalError "TypeError")) ∧
   new_events w (gretchen 1 Demo.url (VRef 0) w).1 = [] ∧
   env (gretchen 1 Demo.url (VRef 0) w).1 = env w) ∧
  ∃ w1 init,
    resolve Demo.url (VRef 1) w =
      (w1, inr (options_of (own_props (heap w) (VRef 1)), init)).
Proof.
  intros w. split.
  - apply (proj1 (invalid_headers_throw 1 Demo.url (VRef 0) w)).
    + vm_compute. reflexivity.
    + vm_compute. reflexivity.
    + intros Hv. vm_compute in Hv. discriminate Hv.
    + intros l Hv. vm_compute in Hv. discriminate Hv.
  - apply (proj2 (invalid_headers_throw 1 Demo.url (VRef 1) w)).
    vm_compute. reflexivity.
Defined.

Lemma stringify_error_propagates_witness :
  let w := Demo.world
             {[ 0 := OPlain {[ "sendJSON" := VBool true; "body" := VRef 1 ]};
                1 := OOpaque ]}
             [inr Demo.success] in
  (gretchen 1 Demo.url (VRef 0) w).2 = Some (Thrown (ExternalError "TypeError")) ∧
  new_events w (gretchen 1 Demo.url (VRef 0) w).1 = [] ∧
  env (gretchen 1 Demo.url (VRef 0) w).1 = env w.
Proof.
  intros w.
  apply (stringify_error_propagates 1 Demo.url (VRef 0) w "TypeError").
  - vm_compute. reflexivity.
  - vm_compute. reflexivity.
  - intros Hb. vm_compute in Hb. discriminate Hb.
  - exists []. vm_compute. reflexivity.
  - intros h Hext.
    pose proof (Hext 1 (ex_intro _ OOpaque eq_refl)) as H1.
    change (Demo.stringify h (VRef 1) = inl "TypeError").
    unfold Demo.stringify. rewrite H1. reflexivity.
Defined.


Lemma createGretchen_leaves_objects_witness :
  let w := Demo.world
             {[ 0 := OPlain {[ "requestJSON" := VBool true; "headers" := VRef 2 ]};
                1 := OPlain {[ "returnJSON" := VBool true ]};
                2 := OHeaders [("x-token", "abc")] ]}
             [inr Demo.success] in
  heap (createGretchen (VRef 0) 1 Demo.url (VRef 1) w).1 !! 2 =
  Some (OHeaders [("x-token", "abc")]).
Proof.
  intros w.
  assert (is_Some (heap w !! 2)) as H2 by (vm_compute; eauto).
  rewrite (createGretchen_leaves_objects (VRef 0) (VRef 1) 1 Demo.url w 2 H2).
  vm_compute. reflexivity.
Defined.

Lemma one_retry_then_result_witness :
  let w := Demo.world
             {[ 0 := OPlain {[ "retryOnTooManyRequests" := VBool true ]} ]}
             [inr Demo.retry_date; inr Demo.success] in
  (gretchen 2 Demo.url (VRef 0) w).2 = Some (Returned (RResponse Demo.success)) ∧
  ∃ h ini,
    new_events w (gretchen 2 Demo.url (VRef 0) w).1 =
      [EvFetch h Demo.url ini (inr Demo.success);
       EvSleep 4000;
       EvFetch h Demo.url ini (inr Demo.retry_date)].
Proof.
  intros w.
  pose proof (one_retry_then_result (H := Demo.platform) 0 Demo.url (VRef 0) w
                (options_of {[ "retryOnTooManyRequests" := VBool true ]}) 2
                Demo.retry_date Demo.success 4000) as Hs.
  cbv zeta in Hs.
  destruct Hs as [Hrun Hnew]; [vm_compute; reflexivity..|].
  rewrite Hrun. cbn [fst snd]. split; [vm_compute; reflexivity|].
  eexists _, _. exact Hnew.
Defined.

(** * Properties of the version script *)

Section BumpProps.
Import Bump.
Context {Sh : Type} `{Shell Sh}.
Local Open Scope list_scope.

Lemma added_app (p p' : Proc Sh) (acts : list Action) :
  trace p' = acts ++ trace p → added p p' = acts.
Proof.
  intros Ht. unfold added. rewrite Ht, length_app.
  replace (length acts + length (trace p) - length (trace p)) with (length acts)
    by lia.
  apply take_app_length.
Qed.

Lemma is_zero_true (st : option Z) : is_zero st = true ↔ st = Some 0%Z.
Proof. destruct st as [[]|]; simpl; split; congruence. Qed.

(** The seven ways through the script: what was spawned, with which
    status, what was written to STDERR and what [exit] was given. *)
Lemma main_cases (argv2 : option string) (p : Proc Sh) :
  let cs := commands (added p (main argv2 p).1) in
  let ms := messages (added p (main argv2 p).1) in
  let code := (main argv2 p).2 in
  let add st := ("git", ["add"; "--"; "./CHANGELOG.md"], st) in
  let diff st :=
    ("git", ["diff"; "--quiet"; "--staged"; "--"; "./CHANGELOG.md"], st) in
  let stash st := ("git", ["stash"; "--"; "./CHANGELOG.md"], st) in
  let npm v st := ("npm", ["version"; v], st) in
  let apply st := ("git", ["stash"; "apply"], st) in
  (argv2 = None ∧ cs = [] ∧
   ms = [chalk_red "A newversion argument must be provided"] ∧
   code = Some 1%Z) ∨
  (∃ v a1, argv2 = Some v ∧ a1 ≠ Some 0%Z ∧ cs = [add a1] ∧
     ms = [chalk_red "Failed to stage CHANGELOG.md"] ∧ code = Some 1%Z) ∨
  (∃ v, argv2 = Some v ∧ cs = [add (Some 0%Z); diff (Some 0%Z)] ∧
     ms = [chalk_red "CHANGELOG.md must be updated before bumping the version"] ∧
     code = Some 1%Z) ∨
  (∃ v a2 a3, argv2 = Some v ∧ a2 ≠ Some 0%Z ∧ a3 ≠ Some 0%Z ∧
     cs = [add (Some 0%Z); diff a2; stash a3] ∧
     ms = [chalk_red "Failed to stash CHANGELOG.md"] ∧ code = Some 1%Z) ∨
  (∃ v a2, argv2 = Some v ∧ a2 ≠ Some 0%Z ∧
     cs = [add (Some 0%Z); diff a2; stash (Some 0%Z); npm v (Some 0%Z)] ∧
     ms = [] ∧ code = Some 0%Z) ∨
  (∃ v a2 a4, argv2 = Some v ∧ a2 ≠ Some 0%Z ∧ a4 ≠ Some 0%Z ∧
     cs = [add (Some 0%Z); diff a2; stash (Some 0%Z); npm v a4;
           apply (Some 0%Z)] ∧
     ms = [] ∧ code = a4) ∨
  (∃ v a2 a4 a5, argv2 = Some v ∧ a2 ≠ Some 0%Z ∧ a4 ≠ Some 0%Z ∧
     a5 ≠ Some 0%Z ∧
     cs = [add (Some 0%Z); diff a2; stash (Some 0%Z); npm v a4; apply a5] ∧
     ms = [] ∧ code = a5).
Proof.
  intros cs ms code add diff stash npm apply.
  subst cs ms code. unfold main, bump, error, console_error, exit, run.
  unfold mbind, Script_bind, mret, Script_ret.
  destruct argv2 as [v|]; simpl.
  2: { left. rewrite (added_app _ _ [_]) by done. by split_and!. }
  right.
  destruct (spawnSync (shell p) _ _ _) as [s1 a1] eqn:H1; simpl.
  destruct (is_zero a1) eqn:Hz1; simpl.
  2: { left. exists v, a1. rewrite (added_app _ _ [_; _]) by done.
       split_and!; try done. intros ->. done. }
  apply is_zero_true in Hz1 as ->. right.
  destruct (spawnSync s1 _ _ _) as [s2 a2] eqn:H2; simpl.
  destruct (is_zero a2) eqn:Hz2; simpl.
  { apply is_zero_true in Hz2 as ->. left. exists v.
    rewrite (added_app _ _ [_; _; _]) by done. by split_and!. }
  assert (a2 ≠ Some 0%Z) as Ha2 by (intros ->; done). right.
  destruct (spawnSync s2 _ _ _) as [s3 a3] eqn:H3; simpl.
  destruct (is_zero a3) eqn:Hz3; simpl.
  2: { left. exists v, a2, a3. rewrite (added_app _ _ [_; _; _; _]) by done.
       split_and!; try done. intros ->. done. }
  apply is_zero_true in Hz3 as ->. right.
  destruct (spawnSync s3 _ _ _) as [s4 a4] eqn:H4; simpl.
  destruct (is_zero a4) eqn:Hz4; simpl.
  { apply is_zero_true in Hz4 as ->. left. exists v, a2.
    rewrite (added_app _ _ [_; _; _; _]) by done. by split_and!. }
  assert (a4 ≠ Some 0%Z) as Ha4 by (intros ->; done). right.
  destruct (spawnSync s4 _ _ _) as [s5 a5] eqn:H5; simpl.
  destruct (is_zero a5) eqn:Hz5; simpl.
  - apply is_zero_true in Hz5 as ->. left. exists v, a2, a4.
    rewrite (added_app _ _ [_; _; _; _; _]) by done. by split_and!.
  - right. exists v, a2, a4, a5.
    rewrite (added_app _ _ [_; _; _; _; _]) by done.
    split_and!; try done. intros ->. done.
Qed.

Ltac cases_of argv2 p :=
  let Hc := fresh "Hc" in
  pose proof (main_cases argv2 p) as Hc; cbv zeta in Hc;
  destruct Hc
    as [(Hargv & Hcs & Hms & Hcode)
       |[(v0 & a1 & Hargv & Ha1 & Hcs & Hms & Hcode)
       |[(v0 & Hargv & Hcs & Hms & Hcode)
       |[(v0 & a2 & a3 & Hargv & Ha2 & Ha3 & Hcs & Hms & Hcode)
       |[(v0 & a2 & Hargv & Ha2 & Hcs & Hms & Hcode)
       |[(v0 & a2 & a4 & Hargv & Ha2 & Ha4 & Hcs & Hms & Hcode)
       |(v0 & a2 & a4 & a5 & Hargv & Ha2 & Ha4 & Ha5 & Hcs & Hms & Hcode)]]]]]].

Ltac in_list H :=
  rewrite ?elem_of_cons, ?elem_of_nil in H;
  repeat (destruct H as [H|H]); try done; simplify_eq.

(** X14.  The version is bumped only behind three checks: [npm version]
    is spawned only when a [newversion] argument was given, with that
    argument, and only after [git add] of the changelog returned 0,
    [git diff --quiet --staged] of the changelog did not return 0 (there is
    a staged change) and [git stash] of the changelog returned 0, in this
    order and with nothing else spawned before. *)
Theorem version_bump_guarded (argv2 : option string) (p : Proc Sh)
    (args : list string) (st : option Z) :
  ("npm", args, st) ∈ commands (added p (main argv2 p).1) →
  ∃ v a2 rest,
    argv2 = Some v ∧ args = ["version"; v] ∧ a2 ≠ Some 0%Z ∧
    commands (added p (main argv2 p).1) =
      ("git", ["add"; "--"; "./CHANGELOG.md"], Some 0%Z) ::
      ("git", ["diff"; "--quiet"; "--staged"; "--"; "./CHANGELOG.md"], a2) ::
      ("git", ["stash"; "--"; "./CHANGELOG.md"], Some 0%Z) ::
      ("npm", args, st) :: rest.
Proof.
  intros Hin. cases_of argv2 p; rewrite Hcs in Hin |- *; in_list Hin.
  all: eexists _, _, _; split_and!; last reflexivity; done.
Qed.

(** X15.  The script calls [exit] with 0 exactly when [npm version] was
    spawned and returned 0.  When [npm version] was not spawned, the script
    wrote one line to STDERR and called [exit] with 1; when it was spawned,
    nothing was written to STDERR. *)
Theorem bump_exit_code (argv2 : option string) (p : Proc Sh) :
  let cs := commands (added p (main argv2 p).1) in
  let ms := messages (added p (main argv2 p).1) in
  let code := (main argv2 p).2 in
  (code = Some 0%Z ↔ ∃ v, ("npm", ["version"; v], Some 0%Z) ∈ cs) ∧
  ((∀ args st, ("npm", args, st) ∉ cs) → code = Some 1%Z ∧ length ms = 1) ∧
  ((∃ args st, ("npm", args, st) ∈ cs) → ms = []).
Proof.
  intros cs ms code. subst cs ms code.
  cases_of argv2 p; rewrite Hcs, Hms, Hcode; split_and!;
    try (split; [done|]; intros [v' Hin]; in_list Hin; fail);
    try (intros (? & ? & Hin); in_list Hin; fail);
    try (intros _; done).
  - split; [|done]. intros _. exists v0. rewrite !elem_of_cons. tauto.
  - intros Hno. destruct (Hno ["version"; v0] (Some 0%Z)).
    rewrite !elem_of_cons. tauto.
  - intros Hno. destruct (Hno ["version"; v0] a4).
    rewrite !elem_of_cons. tauto.
  - intros Hno. destruct (Hno ["version"; v0] a4).
    rewrite !elem_of_cons. tauto.
Qed.

(** X16.  The stashed changelog is put back exactly when the bump failed:
    [git stash apply] is spawned if and only if [npm version] was spawned
    and did not return 0, and it is then the last command; the script then
    calls [exit] with the status of [npm version], or with the status of
    [git stash apply] when that is not 0 either.  After an [npm version]
    that returned 0 nothing more is spawned. *)
Theorem stash_applied_on_failure (argv2 : option string) (p : Proc Sh) :
  let cs := commands (added p (main argv2 p).1) in
  let code := (main argv2 p).2 in
  ((∃ st, ("git", ["stash"; "apply"], st) ∈ cs) ↔
   (∃ v a4, ("npm", ["version"; v], a4) ∈ cs ∧ a4 ≠ Some 0%Z)) ∧
  (∀ st, ("git", ["stash"; "apply"], st) ∈ cs →
     last cs = Some ("git", ["stash"; "apply"], st) ∧
     ∃ v a4, ("npm", ["version"; v], a4) ∈ cs ∧
             code = if is_zero st then a4 else st) ∧
  (∀ v, ("npm", ["version"; v], Some 0%Z) ∈ cs →
     last cs = Some ("npm", ["version"; v], Some 0%Z)).
Proof.
  intros cs code. subst cs code.
  cases_of argv2 p; rewrite Hcs, Hcode; split_and!;
    try (split; [intros [? Hin]|intros (? & ? & Hin & ?)]; in_list Hin; fail);
    try (intros ? Hin; in_list Hin; fail).
  - intros v Hin. in_list Hin. done.
  - split; [intros _|intros _].
    + exists v0, a4. split; [|done]. rewrite !elem_of_cons. tauto.
    + exists (Some 0%Z). rewrite !elem_of_cons. tauto.
  - intros st Hin. in_list Hin. split; [done|]. eexists _, _.
    split; [|reflexivity]. rewrite !elem_of_cons. tauto.
  - split; [intros _|intros _].
    + exists v0, a4. split; [|done]. rewrite !elem_of_cons. tauto.
    + exists a5. rewrite !elem_of_cons. tauto.
  - intros st Hin. in_list Hin. split; [done|]. eexists _, _.
    split; [rewrite !elem_of_cons; tauto|].
    destruct (is_zero _) eqn:Hz; [|done]. by apply is_zero_true in Hz.
Qed.

End BumpProps.

(** ** Concrete runs of the version script *)

Lemma version_bump_guarded_witness :
  let p := Bump.start [Some 0; Some 1; Some 0; Some 0]%Z in
  ∃ v a2 rest,
    Some "1.2.3" = Some v ∧ ["version"; "1.2.3"] = ["version"; v] ∧
    a2 ≠ Some 0%Z ∧
    Bump.commands (Bump.added p (Bump.main (Some "1.2.3") p).1) =
      ("git", ["add"; "--"; "./CHANGELOG.md"], Some 0%Z) ::
      ("git", ["diff"; "--quiet"; "--staged"; "--"; "./CHANGELOG.md"], a2) ::
      ("git", ["stash"; "--"; "./CHANGELOG.md"], Some 0%Z) ::
      ("npm", ["version"; "1.2.3"], Some 0%Z) :: rest.
Proof.
  intros p.
  apply (version_bump_guarded (Some "1.2.3") p).
  vm_compute.
  apply list_elem_of_further, list_elem_of_further, list_elem_of_further,
    list_elem_of_here.
Defined.

Lemma bump_exit_code_witness :
  let p := Bump.start [Some 0; Some 1; Some 0; Some 0]%Z in
  (Bump.main (Some "1.2.3") p).2 = Some 0%Z ∧
  (Bump.main (Some "1.2.3") (Bump.start [Some 0; Some 0]%Z)).2 = Some 1%Z.
Proof.
  intros p. split.
  - pose proof (bump_exit_code (Some "1.2.3") p) as Hs. cbv zeta in Hs.
    apply (proj1 Hs). exists "1.2.3". vm_compute.
    apply list_elem_of_further, list_elem_of_further, list_elem_of_further,
      list_elem_of_here.
  - pose proof (bump_exit_code (Some "1.2.3") (Bump.start [Some 0; Some 0]%Z))
      as Hs.
    cbv zeta in Hs. apply (proj1 (proj2 Hs)).
    intros args st Hin. vm_compute in Hin.
    apply elem_of_cons in Hin as [Hin|Hin]; [discriminate Hin|].
    apply elem_of_cons in Hin as [Hin|Hin]; [discriminate Hin|].
    by apply elem_of_nil in Hin.
Defined.

Lemma stash_applied_on_failure_witness :
  let p := Bump.start [Some 0; Some 1; Some 0; Some 2; Some 0]%Z in
  last (Bump.commands (Bump.added p (Bump.main (Some "1.2.3") p).1)) =
    Some ("git", ["stash"; "apply"], Some 0%Z) ∧
  ∃ v a4,
    ("npm", ["version"; v], a4)
      ∈ Bump.commands (Bump.added p (Bump.main (Some "1.2.3") p).1) ∧
    (Bump.main (Some "1.2.3") p).2 = a4.
Proof.
  intros p.
  pose proof (stash_applied_on_failure (Some "1.2.3") p) as Hs.
  cbv zeta in Hs. destruct Hs as (_ & Hs & _).
  apply (Hs (Some 0%Z)). vm_compute.
  apply list_elem_of_further, list_elem_of_further, list_elem_of_further,
    list_elem_of_further, list_elem_of_here.
Defined.
